(** * SpotifyRecommender front end: the recommendation-list state machine,
      the session resolver and the fetch wrapper.

    Shallow embedding of
      - frontend/src/App.jsx                         (React state and handlers),
      - frontend/src/components/RecommendationsList.jsx (drag-end handler),
      - frontend/src/api.js                          (fetch wrapper),
    followed by the properties of the recommendation list, the Replacing Set
    ([replacingIds]) and the Committed flag ([addedToQueue]). *)

From Stdlib Require Import ZArith DecimalString.
From stdpp Require Import base gmap strings list.

Set Default Proof Using "Type".
Local Open Scope Z_scope.
Local Open Scope string_scope.
Local Open Scope list_scope.

(** ** Data model *)

(** Track JSON shape: [{id, name, artists, album_art, is_playing}];
    [is_playing] only comes with the current song. *)
Module Track.
Record t := mk {
  id : string;
  name : string;
  artists : list string;
  album_art : option string;
  is_playing : option bool;
}.
End Track.
Abbreviation Track := Track.t.

(** A JavaScript [Error]: only its [message] is read. *)
Record Error := mkError { message : string }.

(** How an evaluation (or a settled promise) ends. *)
Inductive completion (A : Type) : Type :=
  | Normal (a : A)
  | Throw (e : Error).
Arguments Normal {A} a.
Arguments Throw {A} e.

(** [POST /api/recommend] reply: [{recommendations, recently_played_ids}];
    the handler guards the second field with [?? []]. *)
Record RecommendData := mkRecommendData {
  recommendations_of : list Track;
  recently_played_ids : option (list string);
}.

(** [POST /api/reject] reply: [{replacement}]. *)
Record RejectData := mkRejectData { replacement : Track }.

(** The calls [App] makes into [api.js]. *)
Inductive ApiCall :=
  | GetCurrentSong (sessionId : option string)
  | GetRecommendations (sessionId : option string) (currentTrackId : string)
      (moods : list string) (n : Z)
  | RejectTrack (sessionId : option string) (rejectedTrackId : string)
      (currentRecs recentlyPlayed : list string)
  | AddToQueue (sessionId : option string) (trackIds : list string).

(** The [useState] cells of [App]. *)
Record State := mkState {
  sessionId : option string;
  currentSong : option Track;
  moods : list string;
  songCount : Z;
  recommendations : list Track;
  recentlyPlayedIds : list string;
  replacingIds : gset string;
  isLoadingSong : bool;
  isLoadingRecs : bool;
  isAddingToQueue : bool;
  addedToQueue : bool;
  error : option string;
}.

(** JavaScript truthiness of a nullable string: [null] and [''] are falsy. *)
Definition truthy (o : option string) : bool :=
  match o with
  | Some s => negb (s =? "")%string
  | None => false
  end.

Definition is_some {A} (o : option A) : bool :=
  match o with Some _ => true | None => false end.

(** Identifiers of a list, in order: [list.map((r) => r.id)]. *)
Definition ids (l : list Track) : list string := map Track.id l.

(** ** A state-and-exception monad for the handlers *)

Definition M (A : Type) : Type := State -> completion A * State.

Definition ret {A} (a : A) : M A := fun s => (Normal a, s).

Definition bind {A B} (m : M A) (k : A -> M B) : M B :=
  fun s =>
    match m s with
    | (Normal a, s') => k a s'
    | (Throw e, s') => (Throw e, s')
    end.

Definition throw {A} (e : Error) : M A := fun s => (Throw e, s).

Definition get : M State := fun s => (Normal s, s).

(** [await p] for a promise whose outcome is [p]. *)
Definition await {A} (p : completion A) : M A := fun s => (p, s).

(** [try { body } catch (e) { handler e } finally { fin }]. *)
Definition try_catch_finally {A} (body : M A) (handler : Error -> M A)
    (fin : M unit) : M A :=
  fun s =>
    let '(r, s1) :=
      match body s with
      | (Normal a, s1) => (Normal a, s1)
      | (Throw e, s1) => handler e s1
      end in
    match fin s1 with
    | (Normal _, s2) => (r, s2)
    | (Throw e, s2) => (Throw e, s2)
    end.

#[global] Instance M_ret : MRet M := @ret.
#[global] Instance M_bind : MBind M := fun A B k m => bind m k.

Definition exec {A} (m : M A) (s : State) : State := snd (m s).
Definition outcome {A} (m : M A) (s : State) : completion A := fst (m s).

(** ** React state setters *)

Definition setCurrentSong (v : option Track) : M unit := fun s =>
  (Normal tt,
   mkState (sessionId s) v (moods s) (songCount s) (recommendations s)
     (recentlyPlayedIds s) (replacingIds s) (isLoadingSong s) (isLoadingRecs s)
     (isAddingToQueue s) (addedToQueue s) (error s)).

(** [setRecommendations(f)] with an updater; a plain value is [fun _ => v]. *)
Definition setRecommendations (f : list Track -> list Track) : M unit := fun s =>
  (Normal tt,
   mkState (sessionId s) (currentSong s) (moods s) (songCount s)
     (f (recommendations s))
     (recentlyPlayedIds s) (replacingIds s) (isLoadingSong s) (isLoadingRecs s)
     (isAddingToQueue s) (addedToQueue s) (error s)).

Definition setRecentlyPlayedIds (v : list string) : M unit := fun s =>
  (Normal tt,
   mkState (sessionId s) (currentSong s) (moods s) (songCount s) (recommendations s)
     v (replacingIds s) (isLoadingSong s) (isLoadingRecs s)
     (isAddingToQueue s) (addedToQueue s) (error s)).

Definition setReplacingIds (f : gset string -> gset string) : M unit := fun s =>
  (Normal tt,
   mkState (sessionId s) (currentSong s) (moods s) (songCount s) (recommendations s)
     (recentlyPlayedIds s) (f (replacingIds s)) (isLoadingSong s) (isLoadingRecs s)
     (isAddingToQueue s) (addedToQueue s) (error s)).

Definition setIsLoadingSong (v : bool) : M unit := fun s =>
  (Normal tt,
   mkState (sessionId s) (currentSong s) (moods s) (songCount s) (recommendations s)
     (recentlyPlayedIds s) (replacingIds s) v (isLoadingRecs s)
     (isAddingToQueue s) (addedToQueue s) (error s)).

Definition setIsLoadingRecs (v : bool) : M unit := fun s =>
  (Normal tt,
   mkState (sessionId s) (currentSong s) (moods s) (songCount s) (recommendations s)
     (recentlyPlayedIds s) (replacingIds s) (isLoadingSong s) v
     (isAddingToQueue s) (addedToQueue s) (error s)).

Definition setIsAddingToQueue (v : bool) : M unit := fun s =>
  (Normal tt,
   mkState (sessionId s) (currentSong s) (moods s) (songCount s) (recommendations s)
     (recentlyPlayedIds s) (replacingIds s) (isLoadingSong s) (isLoadingRecs s)
     v (addedToQueue s) (error s)).

Definition setAddedToQueue (v : bool) : M unit := fun s =>
  (Normal tt,
   mkState (sessionId s) (currentSong s) (moods s) (songCount s) (recommendations s)
     (recentlyPlayedIds s) (replacingIds s) (isLoadingSong s) (isLoadingRecs s)
     (isAddingToQueue s) v (error s)).

Definition setError (v : option string) : M unit := fun s =>
  (Normal tt,
   mkState (sessionId s) (currentSong s) (moods s) (songCount s) (recommendations s)
     (recentlyPlayedIds s) (replacingIds s) (isLoadingSong s) (isLoadingRecs s)
     (isAddingToQueue s) (addedToQueue s) v).

(** ** App.jsx: the handlers

    An [async] handler is split at its [await]: the [_begin] part runs in the
    event that starts it and yields the call handed to [api.js]; the [_settle]
    part runs when the promise settles, with the promise's outcome as argument.
    Other events may run between the two. *)

(** [useEffect] on mount, lines 43-50. *)
Definition fetchSong_begin : M (option ApiCall) :=
  s ← get;
  if negb (truthy (sessionId s)) then ret None
  else
    setIsLoadingSong true;;
    ret (Some (GetCurrentSong (sessionId s))).

Definition fetchSong_settle (reply : completion (option Track)) : M unit :=
  try_catch_finally
    (song ← await reply; setCurrentSong song)
    (fun e => setError (Some ("Could not fetch current song: " +:+ message e)))
    (setIsLoadingSong false).

(** [handleGenerate], lines 53-58 (up to the [await]). *)
Definition handleGenerate_begin : M (option ApiCall) :=
  s ← get;
  match currentSong s with
  | Some song =>
      if negb (truthy (sessionId s)) then ret None
      else
        setError None;;
        setIsLoadingRecs true;;
        setAddedToQueue false;;
        setRecommendations (fun _ => []);;
        ret (Some (GetRecommendations (sessionId s) (Track.id song)
                     (moods s) (songCount s)))
  | None => ret None
  end.

(** [handleGenerate], lines 59-67. *)
Definition handleGenerate_settle (reply : completion RecommendData) : M unit :=
  try_catch_finally
    (data ← await reply;
     setRecommendations (fun _ => recommendations_of data);;
     setRecentlyPlayedIds (default [] (recently_played_ids data)))
    (fun e => setError (Some ("Could not get recommendations: " +:+ message e)))
    (setIsLoadingRecs false).

(** [handleGenerate] when no other event runs during its [await]: the two
    halves back to back. Whatever depends on a cell written before the
    [await] (the banner, the Committed flag, the emptied list) is stated on
    the halves and on [fire] below, where replies of other requests may land
    in between. *)
Definition handleGenerate (reply : completion RecommendData) : M unit :=
  call ← handleGenerate_begin;
  match call with
  | Some _ => handleGenerate_settle reply
  | None => ret tt
  end.

(** [handleReject], lines 72-75 (up to the [await]). *)
Definition handleReject_begin (trackId : string) : M ApiCall :=
  setReplacingIds (fun prev => prev ∪ {[trackId]});;
  s ← get;
  let currentIds := ids (recommendations s) in
  ret (RejectTrack (sessionId s) trackId currentIds (recentlyPlayedIds s)).

(** [handleReject], lines 76-87. *)
Definition handleReject_settle (trackId : string) (reply : completion RejectData)
    : M unit :=
  try_catch_finally
    (data ← await reply;
     setRecommendations
       (fun prev =>
          map (fun r => if (Track.id r =? trackId)%string
                        then replacement data else r) prev))
    (fun e => setError (Some ("Could not replace track: " +:+ message e)))
    (setReplacingIds (fun prev => prev ∖ {[trackId]})).

Definition handleReject (trackId : string) (reply : completion RejectData)
    : M unit :=
  handleReject_begin trackId;; handleReject_settle trackId reply.

(** [handleAddToQueue], lines 92-94 (up to the [await]). *)
Definition handleAddToQueue_begin : M ApiCall :=
  setIsAddingToQueue true;;
  s ← get;
  ret (AddToQueue (sessionId s) (ids (recommendations s))).

(** [handleAddToQueue], lines 95-100. *)
Definition handleAddToQueue_settle {R} (reply : completion R) : M unit :=
  try_catch_finally
    (await reply;; setAddedToQueue true)
    (fun e => setError (Some ("Could not add to queue: " +:+ message e)))
    (setIsAddingToQueue false).

Definition handleAddToQueue {R} (reply : completion R) : M unit :=
  handleAddToQueue_begin;; handleAddToQueue_settle reply.

(** [handleReorder], lines 104-107. *)
Definition handleReorder (newList : list Track) : M unit :=
  setRecommendations (fun _ => newList);;
  setAddedToQueue false.

(** [App]'s initial [useState] values, for a resolved session token. *)
Definition initialState (session : option string) : State :=
  mkState session None [] 5 [] [] ∅ false false false false None.

(** What [App] returns from a render. [LoginPage] takes no props and has no
    effect of its own: its only control is a link to [/api/login]. *)
Inductive SongSlot :=
  | SongSkeleton
  | CurrentSongCard (song : option Track).

Record ListProps := mkListProps {
  songs_prop : list Track;
  replacingIds_prop : gset string;
  isAddingToQueue_prop : bool;
  addedToQueue_prop : bool;
}.

Inductive Element :=
  | LoginPage
  | AppView (errorBanner : option string) (song : SongSlot)
      (controls : option (list string * Z * bool))
      (recommendationsList : option ListProps).

(** The render body of [App], lines 110-185. *)
Definition App_render (s : State) : Element :=
  if negb (truthy (sessionId s)) then LoginPage
  else
    AppView
      (error s)
      (if isLoadingSong s then SongSkeleton else CurrentSongCard (currentSong s))
      (if is_some (currentSong s)
       then Some (moods s, songCount s, isLoadingRecs s) else None)
      (if (0 <? length (recommendations s))%nat
       then Some (mkListProps (recommendations s) (replacingIds s)
                    (isAddingToQueue s) (addedToQueue s))
       else None).

(** ** App.jsx: [getSessionId] *)

(** The part of [window] the resolver touches. [location_search] is the query
    as [new URLSearchParams(window.location.search)] presents it: the decoded
    name/value pairs in order. *)
Record Window := mkWindow {
  location_pathname : string;
  location_search : list (string * string);
  sessionStorage : gmap string string;
}.

(** [params.get(name)]: the first value with that name, or [null]. *)
Fixpoint URLSearchParams_get (name : string) (params : list (string * string))
    : option string :=
  match params with
  | [] => None
  | (k, v) :: rest =>
      if (k =? name)%string then Some v else URLSearchParams_get name rest
  end.

Definition getSessionId (w : Window) : option string * Window :=
  let params := location_search w in
  match URLSearchParams_get "session" params with
  | Some id =>
      if negb (id =? "")%string then
        (* sessionStorage.setItem; history.replaceState({}, '', '/') *)
        (Some id, mkWindow "/" [] (<["session_id" := id]> (sessionStorage w)))
      else (sessionStorage w !! "session_id", w)
  | None => (sessionStorage w !! "session_id", w)
  end.

(** [useState(getSessionId)] and the other initial cells. *)
Definition App_init (w : Window) : State * Window :=
  let '(session, w') := getSessionId w in (initialState session, w').

(** ** RecommendationsList.jsx: [handleDragEnd] *)

(** [array.findIndex(p)]: the first index satisfying [p], or [-1]. *)
Fixpoint findIndex_from {A} (p : A -> bool) (l : list A) (i : Z) : Z :=
  match l with
  | [] => -1
  | x :: rest => if p x then i else findIndex_from p rest (i + 1)
  end.
Definition findIndex {A} (p : A -> bool) (l : list A) : Z := findIndex_from p l 0.

(** A drag-end event: [active.id], and [over?.id] ([None] when [over] is
    [null], the drop landed on no sortable item). *)
Record DragEndEvent := mkDragEndEvent {
  active : string;
  over : option string;
}.

Definition TypeError (msg : string) : Error := mkError msg.

Section RecommendationsList.
(** [arrayMove] is imported from [@dnd-kit/sortable]. *)
Variable arrayMove : list Track -> Z -> Z -> list Track.

(** Props of the component. *)
Variable songs : list Track.
Variable onReorder : list Track -> M unit.

Definition handleDragEnd (event : DragEndEvent) : M unit :=
  let differs :=
    match over event with
    | Some o => negb (active event =? o)%string
    | None => true
    end in
  if differs then
    let oldIndex := findIndex (fun s => (Track.id s =? active event)%string) songs in
    newIndex ←
      match over event with
      | Some o => ret (findIndex (fun s => (Track.id s =? o)%string) songs)
      | None =>
          (* the callback reads [over.id] on the first element *)
          match songs with
          | [] => ret (-1)
          | _ :: _ => throw (TypeError "Cannot read properties of null (reading 'id')")
          end
      end;
    onReorder (arrayMove songs oldIndex newIndex)
  else ret tt.
End RecommendationsList.

(** [@dnd-kit/sortable]'s [arrayMove(array, from, to)] on an index pair that
    [findIndex] can produce for a non-empty array: [splice(from, 1)] takes the
    element out ([-1] is the last one), [splice(to', 0, x)] puts it back, where
    [to'] was computed before the removal as [to < 0 ? length + to : to]. *)
Definition dndkit_arrayMove (array : list Track) (from to : Z) : list Track :=
  let len := Z.of_nat (length array) in
  let to' := (if to <? 0 then len + to else to)%Z in
  let from' := (if from <? 0 then Z.max (len + from) 0 else Z.min from len)%Z in
  match array !! Z.to_nat from' with
  | Some x =>
      let rest := take (Z.to_nat from') array ++ drop (S (Z.to_nat from')) array in
      let len' := Z.of_nat (length rest) in
      let at_ := (if to' <? 0 then Z.max (len' + to') 0 else Z.min to' len')%Z in
      take (Z.to_nat at_) rest ++ x :: drop (Z.to_nat at_) rest
  | None => array
  end.

(** [RecommendationsList] as [App] mounts it: [songs = recommendations],
    [onReorder = handleReorder]. *)
Definition App_dragEnd (event : DragEndEvent) : M unit :=
  s ← get;
  handleDragEnd dndkit_arrayMove (recommendations s) handleReorder event.

(** ** api.js *)

(** Parsed JSON values. *)
#[local] Unset Elimination Schemes.
Inductive JSON :=
  | JNull
  | JBool (b : bool)
  | JNumber (z : Z)
  | JString (s : string)
  | JArray (items : list JSON)
  | JObject (fields : list (string * JSON)).
#[local] Set Elimination Schemes.

(** The [init] argument handed to [fetch]. [body] holds the value given to
    [JSON.stringify]; the text is the serializer's. *)
Module Request.
Record t := mk {
  url : string;
  method : option string;
  headers : list (string * string);
  body : option JSON;
}.
End Request.
Abbreviation Request := Request.t.

(** The [options] argument of [api]; [{}] is [no_options]. *)
Record Options := mkOptions {
  opt_method : option string;
  opt_headers : option (list (string * string));
  opt_body : option JSON;
}.
Definition no_options : Options := mkOptions None None None.

(** What [api] reads of a [Response]: [res.ok], [res.status], and how the
    promises of [res.text()] and [res.json()] settle. *)
Module Response.
Record t := mk {
  ok : bool;
  status : N;
  text : completion string;
  json : completion JSON;
}.
End Response.
Abbreviation Response := Response.t.

(** Network computations: the [fetch] calls issued, and the outcome. *)
Definition Net (A : Type) : Type := list Request * completion A.

Definition net_ret {A} (a : A) : Net A := ([], Normal a).
Definition net_throw {A} (e : Error) : Net A := ([], Throw e).
Definition net_bind {A B} (m : Net A) (k : A -> Net B) : Net B :=
  match m with
  | (log, Normal a) => let '(log', r) := k a in (log ++ log', r)
  | (log, Throw e) => (log, Throw e)
  end.

#[global] Instance Net_ret : MRet Net := @net_ret.
#[global] Instance Net_bind : MBind Net := fun A B k m => net_bind m k.

(** [promise.catch(() => v)]. *)
Definition catch_with {A} (p : completion A) (v : A) : A :=
  match p with
  | Normal a => a
  | Throw _ => v
  end.

(** [`${n}`] for a status code. *)
Definition decimal (n : N) : string := NilZero.string_of_uint (N.to_uint n).

Definition BASE : string := "/api".

Section Api.
(** The transport: how [fetch(url, init)] settles for each request. *)
Variable transport : Request -> completion Response.

Definition fetch (req : Request) : Net Response := ([req], transport req).

(** [api(path, options = {})], lines 3-13. The spread [...options] lets a
    [headers] key of [options] replace the default one. *)
Definition api (path : string) (options : Options) : Net JSON :=
  res ← fetch (Request.mk (BASE +:+ path)
                 (opt_method options)
                 (default [("Content-Type", "application/json")]
                    (opt_headers options))
                 (opt_body options));
  if negb (Response.ok res) then
    let text := catch_with (Response.text res) "Unknown error" in
    net_throw (mkError (if (text =? "")%string
                        then "HTTP " +:+ decimal (Response.status res)
                        else text))
  else (([], Response.json res) : Net JSON).

(** [`${x}`] and [JSON.stringify] of a nullable string. *)
Definition template (o : option string) : string := default "null" o.
Definition nullable (o : option string) : JSON :=
  match o with Some s => JString s | None => JNull end.
Definition strings (l : list string) : JSON := JArray (map JString l).

Definition getCurrentSong (sessionId : option string) : Net JSON :=
  api ("/current-song?session_id=" +:+ template sessionId) no_options.

Definition getRecommendations (sessionId : option string)
    (currentTrackId : string) (moods : list string) (n : Z) : Net JSON :=
  api "/recommend"
    (mkOptions (Some "POST") None
       (Some (JObject [("session_id", nullable sessionId);
                       ("current_track_id", JString currentTrackId);
                       ("moods", strings moods);
                       ("n", JNumber n)]))).

Definition rejectTrack (sessionId : option string) (rejectedTrackId : string)
    (currentRecs recentlyPlayed : list string) : Net JSON :=
  api "/reject"
    (mkOptions (Some "POST") None
       (Some (JObject [("session_id", nullable sessionId);
                       ("rejected_track_id", JString rejectedTrackId);
                       ("current_recommendations", strings currentRecs);
                       ("recently_played_ids", strings recentlyPlayed)]))).

Definition addToQueue (sessionId : option string) (trackIds : list string)
    : Net JSON :=
  api "/add-to-queue"
    (mkOptions (Some "POST") None
       (Some (JObject [("session_id", nullable sessionId);
                       ("track_ids", strings trackIds)]))).

(** The gateway operation behind each call of [App]. *)
Definition perform (c : ApiCall) : Net JSON :=
  match c with
  | GetCurrentSong sid => getCurrentSong sid
  | GetRecommendations sid cur ms n => getRecommendations sid cur ms n
  | RejectTrack sid rej cur rp => rejectTrack sid rej cur rp
  | AddToQueue sid tids => addToQueue sid tids
  end.
End Api.

(** ** The list controller's operations

    The mutation entry points of the recommendation list, under the names the
    design uses for them. *)

(** A generation that succeeded with [tracks]. *)
Definition setList (tracks : list Track) (recent : option (list string)) : M unit :=
  handleGenerate (Normal (mkRecommendData tracks recent)).

Definition reorder (newOrder : list Track) : M unit := handleReorder newOrder.

Definition beginReject (trackId : string) : M ApiCall := handleReject_begin trackId.

Definition completeReject (trackId : string) (r : Track) : M unit :=
  handleReject_settle trackId (Normal (mkRejectData r)).

Definition failReject (trackId : string) (e : Error) : M unit :=
  handleReject_settle trackId (Throw e).

(** A queue submission that succeeded. *)
Definition commit : M unit := handleAddToQueue (Normal JNull).

(** Two lists hold the same identifier set. *)
Definition same_ids (l1 l2 : list Track) : Prop :=
  ∀ i, i ∈ ids l1 ↔ i ∈ ids l2.

(** Sequences of controller operations. *)
Inductive Op :=
  | OpSetList (tracks : list Track) (recent : option (list string))
  | OpReorder (newOrder : list Track)
  | OpBeginReject (trackId : string)
  | OpCompleteReject (trackId : string) (r : Track)
  | OpFailReject (trackId : string) (e : Error)
  | OpCommit.

Definition step (o : Op) : M unit :=
  match o with
  | OpSetList tracks recent => setList tracks recent
  | OpReorder newOrder => reorder newOrder
  | OpBeginReject trackId => beginReject trackId;; mret tt
  | OpCompleteReject trackId r => completeReject trackId r
  | OpFailReject trackId e => failReject trackId e
  | OpCommit => commit
  end.

Fixpoint run (ops : list Op) (s : State) : State :=
  match ops with
  | [] => s
  | o :: rest => run rest (exec (step o) s)
  end.

(** The arguments under which an operation cannot introduce a duplicate
    identifier; nothing in the handlers checks them. A completion whose
    identifier has left the list is a no-op, whatever it carries. *)
Definition op_safe (o : Op) (s : State) : Prop :=
  match o with
  | OpSetList tracks _ => NoDup (ids tracks)
  | OpReorder newOrder => NoDup (ids newOrder)
  | OpCompleteReject trackId r =>
      trackId ∉ ids (recommendations s) ∨
      Track.id r = trackId ∨ Track.id r ∉ ids (recommendations s)
  | _ => True
  end.

Fixpoint run_safe (ops : list Op) (s : State) : Prop :=
  match ops with
  | [] => True
  | o :: rest => op_safe o s ∧ run_safe rest (exec (step o) s)
  end.

(** Every [OpSetList] of the sequence carries pairwise-distinct identifiers. *)
Definition setLists_distinct (ops : list Op) : Prop :=
  Forall (fun o => match o with
                   | OpSetList tracks _ => NoDup (ids tracks)
                   | _ => True
                   end) ops.

(** ** Sample data *)

Definition track (i n : string) : Track := Track.mk i n ["artist"] None None.

Definition tA : Track := track "a" "Alpha".
Definition tB : Track := track "b" "Bravo".
Definition tC : Track := track "c" "Charlie".
Definition tD : Track := track "d" "Delta".
(** Another track that carries [tB]'s identifier. *)
Definition tB' : Track := track "b" "Bravo (remaster)".
Definition tA' : Track := track "a" "Alpha (live)".

Definition nowPlaying : Track :=
  Track.mk "now" "Now" ["artist"] None (Some true).

(** Logged in, current song fetched, nothing generated yet. *)
Definition ready : State :=
  mkState (Some "tok") (Some nowPlaying) [] 5 [] [] ∅
    false false false false None.

(** [ready] with a list on screen, a Replacing Set and a Committed flag. *)
Definition showing (l : list Track) (replacing : gset string) (committed : bool)
    : State :=
  mkState (Some "tok") (Some nowPlaying) [] 5 l [] replacing
    false false false committed None.

(** The updater of [handleReject]: [prev.map((r) => r.id === trackId ? x : r)]. *)
Definition replace_id (trackId : string) (x : Track) (prev : list Track)
    : list Track :=
  map (fun r => if (Track.id r =? trackId)%string then x else r) prev.

(** The request [api] builds. *)
Definition api_request (path : string) (options : Options) : Request :=
  Request.mk (BASE +:+ path) (opt_method options)
    (default [("Content-Type", "application/json")] (opt_headers options))
    (opt_body options).

(** The four outcomes of [api] once the transport has answered with [res]. *)
Definition api_contract (res : Response) (result : completion JSON) : Prop :=
  (Response.ok res = false →
     (∀ t, Response.text res = Normal t → t ≠ "" →
        result = Throw (mkError t)) ∧
     (Response.text res = Normal "" →
        result = Throw (mkError ("HTTP " +:+ decimal (Response.status res)))) ∧
     (∀ e, Response.text res = Throw e →
        result = Throw (mkError "Unknown error"))) ∧
  (Response.ok res = true →
     (∀ v, Response.json res = Normal v → result = Normal v) ∧
     (∀ e, Response.json res = Throw e → result = Throw e)).

(** A server that answers every request with [500] and the body [boom]. *)
Definition failing_server : Request → completion Response :=
  fun _ => Normal (Response.mk false 500 (Normal "boom") (Throw (mkError "Unexpected token b")))%N.

(** A server that answers every request with an empty [200]. *)
Definition empty_ok_server : Request → completion Response :=
  fun _ => Normal (Response.mk true 200 (Normal "")
                     (Throw (mkError "Unexpected end of JSON input")))%N.

(** A navigation with no session parameter and nothing persisted. *)
Definition fresh_window : Window := mkWindow "/" [] ∅.

(** Back from the login redirect: [/?session=tok], an older token persisted. *)
Definition redirected_window : Window :=
  mkWindow "/" [("session", "tok")] {["session_id" := "old"]}.

(** [/?session=]: the parameter is there, with an empty value. *)
Definition empty_param_window : Window :=
  mkWindow "/" [("session", "")] {["session_id" := "old"]}.

(** ** App.jsx: the selection cells *)

Definition setMoods (v : list string) : M unit := fun s =>
  (Normal tt,
   mkState (sessionId s) (currentSong s) v (songCount s) (recommendations s)
     (recentlyPlayedIds s) (replacingIds s) (isLoadingSong s) (isLoadingRecs s)
     (isAddingToQueue s) (addedToQueue s) (error s)).

Definition setSongCount (v : Z) : M unit := fun s =>
  (Normal tt,
   mkState (sessionId s) (currentSong s) (moods s) v (recommendations s)
     (recentlyPlayedIds s) (replacingIds s) (isLoadingSong s) (isLoadingRecs s)
     (isAddingToQueue s) (addedToQueue s) (error s)).

(** ** MoodSelector.jsx *)

(** The [id] and [label] of each entry of [MOODS]. *)
Definition MOODS : list (string * string) :=
  [("happy", "Happy"); ("sad", "Sad"); ("hype", "Hype"); ("chill", "Chill");
   ("dark", "Dark"); ("focus", "Focus"); ("romantic", "Romantic");
   ("angry", "Angry")].

Definition mood_ids : list string := map fst MOODS.

(** [array.includes(x)] on strings. *)
Definition includes (x : string) (l : list string) : bool :=
  existsb (fun y => (y =? x)%string) l.

Section MoodSelector.
(** Props of the component. *)
Variable selected : list string.
Variable onChange : list string -> M unit.

(** [toggle(id)], lines 16-22. *)
Definition toggle (id : string) : M unit :=
  if includes id selected
  then onChange (List.filter (fun m => negb (m =? id)%string) selected)
  else onChange (selected ++ [id]).
End MoodSelector.

(** ** SongCountPicker.jsx *)

Definition OPTIONS : list Z := [3; 5; 7; 10].

Section SongCountPicker.
Variable onChange : Z -> M unit.

(** The [onChange] of the custom input, lines 28-31. [v] is
    [parseInt(e.target.value, 10)], [None] for [NaN]. *)
Definition customChange (v : option Z) : M unit :=
  match v with
  | Some v => if ((0 <? v) && (v <=? 25))%Z then onChange v else ret tt
  | None => ret tt
  end.
End SongCountPicker.

(** ** The running application

    The state of [App] together with the calls in flight. An event fires only
    where the rendered tree offers it: nothing but [LoginPage] without a
    session, the selection widgets and the generate button once a song is
    there ([disabled] while [isLoadingRecs]), the list, its rows (reject
    [disabled] while the row is being replaced) and the queue button (hidden
    once [addedToQueue], [disabled] while [isAddingToQueue]) while the list is
    not empty. *)

#[global] Instance ApiCall_eq_dec : EqDecision ApiCall.
Proof. solve_decision. Defined.

Record World := mkWorld {
  st : State;
  inflight : list ApiCall;
}.

Inductive Event :=
  | SongSettled (call : ApiCall) (reply : completion (option Track))
  | ToggleMood (id : string)
  | PickOption (n : Z)
  | CustomCount (v : option Z)
  | ClickGenerate
  | GenerateSettled (call : ApiCall) (reply : completion RecommendData)
  | ClickReject (trackId : string)
  | RejectSettled (call : ApiCall) (reply : completion RejectData)
  | ClickAddToQueue
  | AddToQueueSettled (call : ApiCall) (reply : completion JSON)
  | DragEnd (event : DragEndEvent)
  | DismissError.

(** Take one occurrence of [c] out of the calls in flight. *)
Fixpoint settle_one (c : ApiCall) (l : list ApiCall) : list ApiCall :=
  match l with
  | [] => []
  | c' :: rest => if decide (c' = c) then rest else c' :: settle_one c rest
  end.

Definition in_flight (c : ApiCall) (w : World) : bool :=
  bool_decide (c ∈ inflight w).

Definition controls_shown (s : State) : bool :=
  match App_render s with
  | AppView _ _ (Some _) _ => true
  | _ => false
  end.

Definition list_shown (s : State) : bool :=
  match App_render s with
  | AppView _ _ _ (Some _) => true
  | _ => false
  end.

Definition banner_shown (s : State) : bool :=
  match App_render s with
  | AppView banner _ _ _ => truthy banner
  | _ => false
  end.

(** The mount of [App] for a resolved token. *)
Definition boot (session : option string) : World :=
  match fetchSong_begin (initialState session) with
  | (Normal (Some call), s) => mkWorld s [call]
  | (_, s) => mkWorld s []
  end.

(** One event; [None] when the tree does not offer it. *)
Definition fire (ev : Event) (w : World) : option World :=
  let s := st w in
  match ev with
  | SongSettled call reply =>
      match call with
      | GetCurrentSong _ =>
          if in_flight call w
          then Some (mkWorld (exec (fetchSong_settle reply) s)
                       (settle_one call (inflight w)))
          else None
      | _ => None
      end
  | ToggleMood id =>
      if controls_shown s && includes id mood_ids
      then Some (mkWorld (exec (toggle (moods s) setMoods id) s) (inflight w))
      else None
  | PickOption n =>
      if controls_shown s && bool_decide (n ∈ OPTIONS)
      then Some (mkWorld (exec (setSongCount n) s) (inflight w))
      else None
  | CustomCount v =>
      if controls_shown s
      then Some (mkWorld (exec (customChange setSongCount v) s) (inflight w))
      else None
  | ClickGenerate =>
      if controls_shown s && negb (isLoadingRecs s)
      then match handleGenerate_begin s with
           | (Normal (Some call), s') => Some (mkWorld s' (inflight w ++ [call]))
           | (_, s') => Some (mkWorld s' (inflight w))
           end
      else None
  | GenerateSettled call reply =>
      match call with
      | GetRecommendations _ _ _ _ =>
          if in_flight call w
          then Some (mkWorld (exec (handleGenerate_settle reply) s)
                       (settle_one call (inflight w)))
          else None
      | _ => None
      end
  | ClickReject trackId =>
      if list_shown s && includes trackId (ids (recommendations s))
         && negb (bool_decide (trackId ∈ replacingIds s))
      then match handleReject_begin trackId s with
           | (Normal call, s') => Some (mkWorld s' (inflight w ++ [call]))
           | (_, s') => Some (mkWorld s' (inflight w))
           end
      else None
  | RejectSettled call reply =>
      match call with
      | RejectTrack _ trackId _ _ =>
          if in_flight call w
          then Some (mkWorld (exec (handleReject_settle trackId reply) s)
                       (settle_one call (inflight w)))
          else None
      | _ => None
      end
  | ClickAddToQueue =>
      if list_shown s && negb (addedToQueue s) && negb (isAddingToQueue s)
      then match handleAddToQueue_begin s with
           | (Normal call, s') => Some (mkWorld s' (inflight w ++ [call]))
           | (_, s') => Some (mkWorld s' (inflight w))
           end
      else None
  | AddToQueueSettled call reply =>
      match call with
      | AddToQueue _ _ =>
          if in_flight call w
          then Some (mkWorld (exec (handleAddToQueue_settle reply) s)
                       (settle_one call (inflight w)))
          else None
      | _ => None
      end
  | DragEnd event =>
      if list_shown s && includes (active event) (ids (recommendations s))
         && match over event with
            | Some o => includes o (ids (recommendations s))
            | None => true
            end
      then Some (mkWorld (exec (App_dragEnd event) s) (inflight w))
      else None
  | DismissError =>
      if banner_shown s
      then Some (mkWorld (exec (setError None) s) (inflight w))
      else None
  end.

Fixpoint fire_all (evs : list Event) (w : World) : option World :=
  match evs with
  | [] => Some w
  | ev :: rest =>
      match fire ev w with
      | Some w' => fire_all rest w'
      | None => None
      end
  end.

(** The identifiers with a reject in flight, and the calls of each kind. *)
Definition rejecting (l : list ApiCall) : list string :=
  omap (fun c => match c with
                 | RejectTrack _ trackId _ _ => Some trackId
                 | _ => None
                 end) l.

Inductive Kind := KSong | KRecommend | KReject | KQueue.

#[global] Instance Kind_eq_dec : EqDecision Kind.
Proof. solve_decision. Defined.

Definition kind (c : ApiCall) : Kind :=
  match c with
  | GetCurrentSong _ => KSong
  | GetRecommendations _ _ _ _ => KRecommend
  | RejectTrack _ _ _ _ => KReject
  | AddToQueue _ _ => KQueue
  end.

Definition count_kind (k : Kind) (l : list ApiCall) : nat :=
  length (List.filter (fun c => bool_decide (kind c = k)) l).

Definition call_session (c : ApiCall) : option string :=
  match c with
  | GetCurrentSong sid => sid
  | GetRecommendations sid _ _ _ => sid
  | RejectTrack sid _ _ _ => sid
  | AddToQueue sid _ => sid
  end.

(** A well-formed request configuration: duplicate-free moods out of
    [MOODS], a count between 1 and 25. *)
Definition config_ok (ms : list string) (n : Z) : Prop :=
  NoDup ms ∧ (∀ m, m ∈ ms → m ∈ mood_ids) ∧ (1 ≤ n ≤ 25)%Z.

Definition call_config_ok (c : ApiCall) : Prop :=
  match c with
  | GetRecommendations _ _ ms n => config_ok ms n
  | _ => True
  end.


Definition generation_reply (ev : Event) : bool :=
  match ev with
  | GenerateSettled _ _ => true
  | _ => false
  end.

Definition failed_reply (ev : Event) : bool :=
  match ev with
  | SongSettled _ (Throw _) => true
  | GenerateSettled _ (Throw _) => true
  | RejectSettled _ (Throw _) => true
  | AddToQueueSettled _ (Throw _) => true
  | _ => false
  end.


(** What holds of every world the application reaches for a resolved token
    [session]. *)
Record Inv (session : option string) (w : World) : Prop := mkInv {
  inv_session : sessionId (st w) = session;
  inv_logged_out : truthy session = false → inflight w = [];
  inv_config : config_ok (moods (st w)) (songCount (st w));
  inv_calls :
    Forall (fun c => call_session c = session ∧ call_config_ok c) (inflight w);
  inv_rejecting : NoDup (rejecting (inflight w));
  inv_replacing : ∀ i, i ∈ replacingIds (st w) ↔ i ∈ rejecting (inflight w);
  inv_song :
    count_kind KSong (inflight w) = if isLoadingSong (st w) then 1%nat else 0%nat;
  inv_recs :
    count_kind KRecommend (inflight w)
    = if isLoadingRecs (st w) then 1%nat else 0%nat;
  inv_queue :
    count_kind KQueue (inflight w)
    = if isAddingToQueue (st w) then 1%nat else 0%nat;
}.

(** The request of a call, whatever the transport answers. *)
Definition request_of (c : ApiCall) : list Request :=
  fst (perform (fun _ => Throw (mkError "offline")) c).

(** A session: the song arrives, the user picks a mood and a count (the
    second count is refused), generates, rejects [b], drags [c] onto [a] and
    submits the queue; the reject and the submission are still in flight. *)
Definition session_script : list Event :=
  [ SongSettled (GetCurrentSong (Some "tok")) (Normal (Some nowPlaying));
    ToggleMood "chill";
    CustomCount (Some 3%Z);
    CustomCount (Some 40%Z);
    ClickGenerate;
    GenerateSettled (GetRecommendations (Some "tok") "now" ["chill"] 3)
      (Normal (mkRecommendData [tA; tB; tC] None));
    ClickReject "b";
    DragEnd (mkDragEndEvent "c" (Some "a"));
    ClickAddToQueue ].

(** * Properties *)

(** ** Scenarios *)

(** List [[a; b; c]], reject [b], the server answers [d]. *)
Example reject_then_replace :
  let s1 := exec (beginReject "b") (showing [tA; tB; tC] ∅ false) in
  let s2 := exec (completeReject "b" tD) s1 in
  recommendations s1 = [tA; tB; tC] ∧ "b" ∈ replacingIds s1 ∧
  recommendations s2 = [tA; tD; tC] ∧ "b" ∉ replacingIds s2.
Proof.
  simpl. split; [reflexivity|]. split; [|split; [reflexivity|]].
  - apply elem_of_union_r, elem_of_singleton. reflexivity.
  - rewrite elem_of_difference, elem_of_singleton. tauto.
Qed.

(** A fresh generation lands before the replacement for [b]: the late
    replacement is dropped. *)
Example stale_replacement_dropped :
  let s1 := exec (beginReject "b") (showing [tA; tB; tC] ∅ false) in
  let s2 := exec (setList [tD; tA'] None) s1 in
  let s3 := exec (completeReject "b" tC) s2 in
  recommendations s3 = [tD; tA'].
Proof. reflexivity. Qed.

(** A failed replacement keeps the list and shows the banner. *)
Example reject_failure :
  let s1 := exec (beginReject "b") (showing [tA; tB; tC] ∅ false) in
  let s2 := exec (failReject "b" (mkError "boom")) s1 in
  recommendations s2 = [tA; tB; tC] ∧
  error s2 = Some "Could not replace track: boom".
Proof. split; reflexivity. Qed.

(** Dragging [b] onto [c]. *)
Example drag_b_onto_c :
  let s := exec (App_dragEnd (mkDragEndEvent "b" (Some "c")))
             (showing [tA; tB; tC] ∅ true) in
  recommendations s = [tA; tC; tB] ∧ addedToQueue s = false.
Proof. split; reflexivity. Qed.

(** Dragging [c] onto [a]. *)
Example drag_c_onto_a :
  recommendations (exec (App_dragEnd (mkDragEndEvent "c" (Some "a")))
                     (showing [tA; tB; tC] ∅ true))
  = [tC; tA; tB].
Proof. reflexivity. Qed.

(** A drop outside every item: [over] is [null] and the handler throws. *)
Example drag_onto_nothing :
  App_dragEnd (mkDragEndEvent "b" None) (showing [tA; tB; tC] ∅ true)
  = (Throw (TypeError "Cannot read properties of null (reading 'id')"),
     showing [tA; tB; tC] ∅ true).
Proof. reflexivity. Qed.

(** A non-success with an empty body. *)
Example api_empty_failure :
  snd (getCurrentSong
         (fun _ => Normal (Response.mk false 502 (Normal "") (Throw (mkError "x")))%N)
         (Some "tok"))
  = Throw (mkError "HTTP 502").
Proof. reflexivity. Qed.

Example api_request_url :
  fst (getCurrentSong failing_server (Some "tok"))
  = [Request.mk "/api/current-song?session_id=tok" None
       [("Content-Type", "application/json")] None].
Proof. reflexivity. Qed.

(** ** Shared lemmas on the handlers *)

Lemma completeReject_state trackId x s :
  completeReject trackId x s =
  (Normal tt,
   mkState (sessionId s) (currentSong s) (moods s) (songCount s)
     (replace_id trackId x (recommendations s))
     (recentlyPlayedIds s) (replacingIds s ∖ {[trackId]})
     (isLoadingSong s) (isLoadingRecs s)
     (isAddingToQueue s) (addedToQueue s) (error s)).
Proof. reflexivity. Qed.

Lemma failReject_state trackId e s :
  failReject trackId e s =
  (Normal tt,
   mkState (sessionId s) (currentSong s) (moods s) (songCount s)
     (recommendations s)
     (recentlyPlayedIds s) (replacingIds s ∖ {[trackId]})
     (isLoadingSong s) (isLoadingRecs s)
     (isAddingToQueue s) (addedToQueue s)
     (Some ("Could not replace track: " +:+ message e))).
Proof. reflexivity. Qed.

Lemma reorder_state newOrder s :
  reorder newOrder s =
  (Normal tt,
   mkState (sessionId s) (currentSong s) (moods s) (songCount s)
     newOrder
     (recentlyPlayedIds s) (replacingIds s)
     (isLoadingSong s) (isLoadingRecs s)
     (isAddingToQueue s) false (error s)).
Proof. reflexivity. Qed.

Lemma beginReject_state trackId s :
  exec (beginReject trackId) s =
  mkState (sessionId s) (currentSong s) (moods s) (songCount s)
    (recommendations s)
    (recentlyPlayedIds s) (replacingIds s ∪ {[trackId]})
    (isLoadingSong s) (isLoadingRecs s)
    (isAddingToQueue s) (addedToQueue s) (error s).
Proof. reflexivity. Qed.

Lemma commit_state s :
  commit s =
  (Normal tt,
   mkState (sessionId s) (currentSong s) (moods s) (songCount s)
     (recommendations s)
     (recentlyPlayedIds s) (replacingIds s)
     (isLoadingSong s) (isLoadingRecs s)
     false true (error s)).
Proof. reflexivity. Qed.

(** A generation that gets past the guard of [handleGenerate]. *)
Lemma setList_state tracks recent s :
  is_some (currentSong s) = true →
  truthy (sessionId s) = true →
  setList tracks recent s =
  (Normal tt,
   mkState (sessionId s) (currentSong s) (moods s) (songCount s)
     tracks
     (default [] recent) (replacingIds s)
     (isLoadingSong s) false
     (isAddingToQueue s) false None).
Proof.
  intros Hsong Htok. unfold setList, handleGenerate, handleGenerate_begin.
  unfold mbind, M_bind, bind, get. simpl.
  destruct (currentSong s) as [song|] eqn:Es; [|discriminate].
  rewrite Htok. simpl. rewrite Es. reflexivity.
Qed.

(** A generation stopped by the guard changes nothing. *)
Lemma setList_guarded tracks recent s :
  is_some (currentSong s) = false ∨ truthy (sessionId s) = false →
  setList tracks recent s = (Normal tt, s).
Proof.
  intros Hguard. unfold setList, handleGenerate, handleGenerate_begin.
  unfold mbind, M_bind, bind, get. simpl.
  destruct (currentSong s) as [song|] eqn:Es; [|reflexivity].
  destruct Hguard as [H|H]; [discriminate|]. rewrite H. reflexivity.
Qed.

Lemma replace_id_absent trackId x l :
  trackId ∉ ids l → replace_id trackId x l = l.
Proof.
  induction l as [|r l IH]; intros Hnot; [reflexivity|].
  unfold replace_id, ids in *. simpl in *.
  apply not_elem_of_cons in Hnot as [Hne Hrest].
  destruct (String.eqb_spec (Track.id r) trackId) as [Heq|_].
  - congruence.
  - f_equal. apply IH, Hrest.
Qed.

Lemma replace_id_lookup trackId x l (j : nat) :
  replace_id trackId x l !! j =
  (fun r => if (Track.id r =? trackId)%string then x else r) <$> (l !! j).
Proof. unfold replace_id. apply list_lookup_fmap. Qed.

Lemma replace_id_length trackId x l :
  length (replace_id trackId x l) = length l.
Proof. unfold replace_id. apply length_map. Qed.

(** ** Reorder *)

(** C1 (as the code has it): [reorder] has no identifier check and no failure
    path. For every state and every argument list [newOrder], whether or not it
    holds the identifiers of the current list, it completes normally, the list
    becomes [newOrder], the Committed flag becomes false and the Replacing Set
    is unchanged. *)
Theorem reorder_accepts_any_list (newOrder : list Track) (s : State) :
  outcome (reorder newOrder) s = Normal tt ∧
  recommendations (exec (reorder newOrder) s) = newOrder ∧
  addedToQueue (exec (reorder newOrder) s) = false ∧
  replacingIds (exec (reorder newOrder) s) = replacingIds s.
Proof. unfold outcome, exec. rewrite reorder_state. simpl. auto. Qed.

(** C1 fails as stated: on the committed list [[a]], [reorder [[b]]] (another
    identifier set) does not fail and leaves neither the list nor the flag. *)
Lemma reorder_foreign_list_not_rejected :
  let s := showing [tA] {["a"]} true in
  let s' := exec (reorder [tB]) s in
  ¬ same_ids [tB] (recommendations s) ∧
  outcome (reorder [tB]) s = Normal tt ∧
  recommendations s' ≠ recommendations s ∧
  addedToQueue s' ≠ addedToQueue s.
Proof.
  simpl. split; [|split; [reflexivity|split; discriminate]].
  intros Hsame. specialize (Hsame "b"). unfold ids in Hsame. simpl in Hsame.
  assert (Hin : "b" ∈ ["a"]) by (apply Hsame; left).
  apply list_elem_of_singleton in Hin. discriminate.
Qed.

(** ** setList *)

(** The install of the list across the [await] is treated with the running
    application, at the end of the file. *)

(** ** Committed flag *)

(** [completeReject] never writes the Committed flag. *)
Lemma completeReject_addedToQueue trackId x s :
  addedToQueue (exec (completeReject trackId x) s) = addedToQueue s.
Proof. unfold exec. rewrite completeReject_state. reflexivity. Qed.

(** C3, at the failing input: the list [[a; b; c]] is committed and [b] is then
    replaced by [d]. The contents change to [[a; d; c]] while the Committed
    flag stays true; [reorder] and [setList] on the same state reset it. *)
Theorem completeReject_leaves_committed_set :
  let s := exec commit (showing [tA; tB; tC] {["b"]} false) in
  let s' := exec (completeReject "b" tD) s in
  addedToQueue s = true ∧
  recommendations s = [tA; tB; tC] ∧
  recommendations s' = [tA; tD; tC] ∧
  addedToQueue s' = true ∧
  addedToQueue (exec (reorder [tB; tA; tC]) s) = false ∧
  addedToQueue (exec (setList [tD] None) s) = false.
Proof. simpl. repeat split; reflexivity. Qed.

(** ** completeReject *)

(** C4: when [trackId] does not occur in the list, [completeReject] leaves
    the list's contents and order as they were. *)
Theorem completeReject_absent_noop (trackId : string) (x : Track) (s : State) :
  trackId ∉ ids (recommendations s) →
  recommendations (exec (completeReject trackId x) s) = recommendations s.
Proof.
  intros Hnot. unfold exec. rewrite completeReject_state. simpl.
  apply replace_id_absent, Hnot.
Qed.

Lemma completeReject_absent_noop_witness :
  recommendations (exec (completeReject "b" tD) (showing [tA; tC] {["b"]} false))
  = [tA; tC].
Proof.
  apply (completeReject_absent_noop "b" tD (showing [tA; tC] {["b"]} false)).
  unfold ids. simpl. intros Hin.
  apply elem_of_cons in Hin as [Hin|Hin]; [discriminate|].
  apply list_elem_of_singleton in Hin. discriminate.
Defined.

(** C5 (as the code has it): when [trackId] occurs at position [k] and at no
    other position, [completeReject] keeps the length, puts the replacement at
    position [k], leaves every other position as it was, and takes [trackId]
    out of the Replacing Set. *)
Theorem completeReject_positional (trackId : string) (x : Track) (s : State)
    (k : nat) (t : Track) :
  recommendations s !! k = Some t →
  Track.id t = trackId →
  (∀ j t', recommendations s !! j = Some t' → Track.id t' = trackId → j = k) →
  let s' := exec (completeReject trackId x) s in
  length (recommendations s') = length (recommendations s) ∧
  recommendations s' !! k = Some x ∧
  (∀ j, j ≠ k → recommendations s' !! j = recommendations s !! j) ∧
  replacingIds s' = replacingIds s ∖ {[trackId]} ∧
  trackId ∉ replacingIds s'.
Proof.
  intros Hk Hid Honly s'. subst s'. unfold exec.
  rewrite completeReject_state. simpl.
  split; [apply replace_id_length|].
  split.
  - rewrite replace_id_lookup, Hk. simpl.
    rewrite Hid, String.eqb_refl. reflexivity.
  - split; [|split; [reflexivity|]].
    2:{ rewrite elem_of_difference, elem_of_singleton. tauto. }
    intros j Hj. rewrite replace_id_lookup.
    destruct (recommendations s !! j) as [t'|] eqn:Ej; [|reflexivity].
    simpl. destruct (String.eqb_spec (Track.id t') trackId) as [Heq|_].
    + exfalso. apply Hj. eapply Honly; eassumption.
    + reflexivity.
Qed.

Lemma completeReject_positional_witness :
  let s := showing [tA; tB; tC] {["b"]} false in
  let s' := exec (completeReject "b" tD) s in
  length (recommendations s') = length (recommendations s) ∧
  recommendations s' !! 1%nat = Some tD ∧
  (∀ j, j ≠ 1%nat → recommendations s' !! j = recommendations s !! j) ∧
  replacingIds s' = replacingIds s ∖ {["b"]} ∧
  "b" ∉ replacingIds s'.
Proof.
  apply (completeReject_positional "b" tD (showing [tA; tB; tC] {["b"]} false)
           1%nat tB).
  - reflexivity.
  - reflexivity.
  - intros j t' Hj Hid.
    destruct j as [|[|[|j]]]; simpl in Hj; try reflexivity;
      try (injection Hj as <-; discriminate Hid); discriminate Hj.
Defined.

(** C5 fails as stated. The list [[tB'; tB]] is reached from [setList [[a; b]]]
    when the replacement for [a] carries the identifier [b]; [b] then occurs
    at position 0, and [completeReject "b"] also overwrites position 1. *)
Lemma completeReject_overwrites_every_match :
  let s := run [OpSetList [tA; tB] None; OpBeginReject "a";
                OpCompleteReject "a" tB'] ready in
  let s' := exec (completeReject "b" tD) s in
  recommendations s = [tB'; tB] ∧
  recommendations s !! 0%nat = Some tB' ∧
  Track.id tB' = "b" ∧
  recommendations s' = [tD; tD] ∧
  recommendations s' !! 1%nat ≠ recommendations s !! 1%nat.
Proof. simpl. repeat split; try reflexivity. discriminate. Qed.

(** ** beginReject *)

(** C6: [beginReject] twice gives the Replacing Set of [beginReject] once, and
    [beginReject] leaves the list as it was. *)
Theorem beginReject_idempotent (trackId : string) (s : State) :
  replacingIds (exec (beginReject trackId) (exec (beginReject trackId) s))
  = replacingIds (exec (beginReject trackId) s) ∧
  recommendations (exec (beginReject trackId) s) = recommendations s ∧
  recommendations (exec (beginReject trackId) (exec (beginReject trackId) s))
  = recommendations s.
Proof.
  rewrite !beginReject_state. simpl.
  split; [|split; reflexivity].
  rewrite <- (assoc_L (∪)). f_equal. apply (idemp_L (∪)).
Qed.

(** ** Distinct identifiers *)

Lemma ids_replace_id_same trackId x l :
  Track.id x = trackId → ids (replace_id trackId x l) = ids l.
Proof.
  intros Hx. unfold ids, replace_id. rewrite map_map.
  apply map_ext. intros r.
  destruct (String.eqb_spec (Track.id r) trackId) as [Heq|_]; congruence.
Qed.

Lemma elem_of_ids_replace_id i trackId x l :
  i ∈ ids (replace_id trackId x l) → i = Track.id x ∨ i ∈ ids l.
Proof.
  induction l as [|r l IH]; unfold ids, replace_id in *; simpl.
  - intros H. apply elem_of_nil in H. destruct H.
  - rewrite !elem_of_cons. intros [Hhd|Htl].
    + destruct (Track.id r =? trackId)%string; auto.
    + destruct (IH Htl); auto.
Qed.

Lemma NoDup_replace_id_fresh trackId x l :
  NoDup (ids l) → Track.id x ∉ ids l → NoDup (ids (replace_id trackId x l)).
Proof.
  induction l as [|r l IH]; intros Hnd Hfresh; [constructor|].
  change (ids (r :: l)) with (Track.id r :: ids l) in Hnd, Hfresh.
  apply NoDup_cons in Hnd as [Hr Hnd].
  apply not_elem_of_cons in Hfresh as [Hne Hfresh].
  change (replace_id trackId x (r :: l))
    with ((if (Track.id r =? trackId)%string then x else r)
            :: replace_id trackId x l).
  destruct (String.eqb_spec (Track.id r) trackId) as [Heq|Hneq].
  - subst trackId. rewrite (replace_id_absent _ _ _ Hr).
    change (NoDup (Track.id x :: ids l)). apply NoDup_cons. auto.
  - change (NoDup (Track.id r :: ids (replace_id trackId x l))).
    apply NoDup_cons. split; [|auto].
    intros Hin. apply elem_of_ids_replace_id in Hin as [Hin|Hin]; auto.
Qed.

(** One safe operation keeps the identifiers pairwise distinct. *)
Lemma step_keeps_distinct o s :
  NoDup (ids (recommendations s)) → op_safe o s →
  NoDup (ids (recommendations (exec (step o) s))).
Proof.
  intros Hnd Hsafe. destruct o as [tracks recent|newOrder|i|i x|i e|];
    cbn [step op_safe] in *.
  - destruct (is_some (currentSong s)) eqn:Hsong.
    + destruct (truthy (sessionId s)) eqn:Htok.
      * unfold exec. rewrite (setList_state _ _ _ Hsong Htok). exact Hsafe.
      * unfold exec. rewrite setList_guarded by auto. exact Hnd.
    + unfold exec. rewrite setList_guarded by auto. exact Hnd.
  - unfold exec. rewrite reorder_state. simpl. exact Hsafe.
  - exact Hnd.
  - unfold exec. rewrite completeReject_state. simpl.
    destruct Hsafe as [Hgone|[Hsame|Hfresh]].
    + rewrite replace_id_absent by exact Hgone. exact Hnd.
    + rewrite ids_replace_id_same by exact Hsame. exact Hnd.
    + apply NoDup_replace_id_fresh; assumption.
  - exact Hnd.
  - exact Hnd.
Qed.

(** C7 (as the code has it): along any sequence of [setList], [reorder],
    [beginReject], [completeReject], [failReject] and [commit] in which every
    [setList] argument and every [reorder] argument has pairwise-distinct
    identifiers, and every [completeReject] either finds its identifier gone
    from the list or carries a replacement with the rejected identifier or
    with one that is not in the list, the identifiers of the list stay
    pairwise distinct. *)
Theorem run_keeps_distinct (ops : list Op) (s : State) :
  NoDup (ids (recommendations s)) →
  run_safe ops s →
  NoDup (ids (recommendations (run ops s))).
Proof.
  revert s. induction ops as [|o ops IH]; intros s Hnd Hsafe; simpl in *.
  - exact Hnd.
  - destruct Hsafe as [Ho Hrest].
    apply IH; [|exact Hrest]. apply step_keeps_distinct; assumption.
Qed.

Lemma NoDup_abc : NoDup ["a"; "b"; "c"].
Proof.
  apply NoDup_cons. split.
  - intros H. apply elem_of_cons in H as [H|H]; [discriminate|].
    apply list_elem_of_singleton in H. discriminate.
  - apply NoDup_cons. split.
    + intros H. apply list_elem_of_singleton in H. discriminate.
    + apply NoDup_singleton.
Defined.

Lemma NoDup_da : NoDup ["d"; "a"].
Proof.
  apply NoDup_cons. split.
  - intros H. apply list_elem_of_singleton in H. discriminate.
  - apply NoDup_singleton.
Defined.

Lemma run_keeps_distinct_witness :
  NoDup (ids (recommendations
    (run [OpSetList [tA; tB; tC] None; OpBeginReject "b";
          OpCompleteReject "b" tD; OpReorder [tD; tA];
          OpCompleteReject "c" tA'; OpCommit]
       ready))).
Proof.
  apply (run_keeps_distinct
           [OpSetList [tA; tB; tC] None; OpBeginReject "b";
            OpCompleteReject "b" tD; OpReorder [tD; tA];
            OpCompleteReject "c" tA'; OpCommit]
           ready).
  - apply NoDup_nil_2.
  - simpl. split; [exact NoDup_abc|].
    split; [exact I|].
    split.
    + right. right. intros H.
      apply elem_of_cons in H as [H|H]; [discriminate|].
      apply elem_of_cons in H as [H|H]; [discriminate|].
      apply list_elem_of_singleton in H. discriminate.
    + split; [exact NoDup_da|].
      split; [|split; exact I].
      left. intros H.
      apply elem_of_cons in H as [H|H]; [discriminate|].
      apply list_elem_of_singleton in H. discriminate.
Defined.

(** C7 fails as stated: after [setList [[a; b]]] (distinct identifiers), the
    server's replacement for [a] carries the identifier [b]; the list then
    holds [b] twice. *)
Lemma completeReject_can_duplicate :
  let ops := [OpSetList [tA; tB] None; OpBeginReject "a";
              OpCompleteReject "a" tB'] in
  setLists_distinct ops ∧
  ids (recommendations (run ops ready)) = ["b"; "b"] ∧
  ¬ NoDup (ids (recommendations (run ops ready))).
Proof.
  cbv zeta. split; [|split].
  - repeat constructor.
    + intros H. apply list_elem_of_singleton in H. discriminate.
    + intros H. apply elem_of_nil in H. exact H.
  - reflexivity.
  - change (¬ NoDup ["b"; "b"]). intros H.
    apply NoDup_cons in H as [H _]. apply H. left.
Qed.

(** ** Gateway client *)

Lemma api_unfold transport path options :
  api transport path options =
  ([api_request path options],
   match transport (api_request path options) with
   | Normal res =>
       if negb (Response.ok res) then
         Throw (mkError
                  (if (catch_with (Response.text res) "Unknown error" =? "")%string
                   then "HTTP " +:+ decimal (Response.status res)
                   else catch_with (Response.text res) "Unknown error"))
       else Response.json res
   | Throw e => Throw e
   end).
Proof.
  unfold api, fetch, mbind, Net_bind, net_bind, net_throw, api_request.
  destruct (transport _) as [res|e]; [|reflexivity].
  destruct (Response.ok res); reflexivity.
Qed.

Lemma api_one_fetch transport path options :
  fst (api transport path options) = [api_request path options].
Proof. rewrite api_unfold. reflexivity. Qed.

Lemma api_meets_contract transport path options res :
  transport (api_request path options) = Normal res →
  api_contract res (snd (api transport path options)).
Proof.
  intros Hres. rewrite api_unfold, Hres. simpl.
  unfold api_contract. split; intros Hok; rewrite Hok; simpl.
  - split; [|split].
    + intros t Ht Hne. rewrite Ht. simpl.
      destruct (String.eqb_spec t "") as [Heq|_]; [contradiction|reflexivity].
    + intros Ht. rewrite Ht. reflexivity.
    + intros e He. rewrite He. reflexivity.
  - split; intros x Hx; exact Hx.
Qed.

(** Each gateway operation is one call of [api]. *)
Lemma perform_is_api transport c :
  ∃ path options, perform transport c = api transport path options.
Proof. destruct c; simpl; eexists _, _; reflexivity. Qed.

(** C8 (as the code has it): every gateway operation issues exactly one
    [fetch]. When the response is a non-success, it fails with the body text,
    or with ["HTTP <status>"] for an empty body, or with ["Unknown error"] for
    an unreadable one. When the response is a success, its outcome is that of
    [res.json()]: the parsed value, or the parser's failure when the body is
    not JSON. A rejected [fetch] fails the operation with the same error. *)
Theorem gateway_contract (transport : Request → completion Response) (c : ApiCall) :
  ∃ req,
    fst (perform transport c) = [req] ∧
    (∀ res, transport req = Normal res →
       api_contract res (snd (perform transport c))) ∧
    (∀ e, transport req = Throw e → snd (perform transport c) = Throw e).
Proof.
  destruct (perform_is_api transport c) as (path & options & ->).
  exists (api_request path options). split; [apply api_one_fetch|]. split.
  - intros res Hres. apply api_meets_contract, Hres.
  - intros e He. rewrite api_unfold, He. reflexivity.
Qed.

Lemma gateway_contract_witness :
  fst (perform failing_server (AddToQueue (Some "tok") ["a"; "b"]))
    = [api_request "/add-to-queue"
         (mkOptions (Some "POST") None
            (Some (JObject [("session_id", JString "tok");
                            ("track_ids", JArray [JString "a"; JString "b"])])))] ∧
  snd (perform failing_server (AddToQueue (Some "tok") ["a"; "b"]))
    = Throw (mkError "boom").
Proof.
  destruct (gateway_contract failing_server (AddToQueue (Some "tok") ["a"; "b"]))
    as (req & Hlog & Hres & _).
  split; [reflexivity|].
  destruct (Hres (Response.mk false 500 (Normal "boom")
                    (Throw (mkError "Unexpected token b")))%N eq_refl)
    as [Hfail _].
  destruct (Hfail eq_refl) as [Htext _].
  apply (Htext "boom" eq_refl). discriminate.
Defined.

(** C8 fails as stated: a success response whose body is not JSON makes the
    operation fail. *)
Lemma gateway_fails_on_success_response :
  ∃ res,
    empty_ok_server (api_request "/add-to-queue"
         (mkOptions (Some "POST") None
            (Some (JObject [("session_id", JString "tok");
                            ("track_ids", JArray [JString "a"])]))))
      = Normal res ∧
    Response.ok res = true ∧
    snd (perform empty_ok_server (AddToQueue (Some "tok") ["a"]))
      = Throw (mkError "Unexpected end of JSON input").
Proof. eexists. repeat split; reflexivity. Qed.

(** ** Session resolver *)

(** C9 (as the code has it): a non-empty session parameter is returned,
    persisted under [session_id] over any earlier token, and the location is
    reset to [/] with no parameter. With no session parameter, or an empty
    one, the resolver returns the persisted token or null and touches neither
    the storage nor the location. When the resolved token is null, [App]
    renders [LoginPage] only and its mount effect issues no call and changes
    no state. *)
Theorem getSessionId_resolves (w : Window) :
  (∀ id, URLSearchParams_get "session" (location_search w) = Some id →
     id ≠ "" →
     fst (getSessionId w) = Some id ∧
     sessionStorage (snd (getSessionId w)) !! "session_id" = Some id ∧
     location_search (snd (getSessionId w)) = [] ∧
     location_pathname (snd (getSessionId w)) = "/" ∧
     URLSearchParams_get "session" (location_search (snd (getSessionId w))) = None) ∧
  (URLSearchParams_get "session" (location_search w) = None ∨
   URLSearchParams_get "session" (location_search w) = Some "" →
     getSessionId w = (sessionStorage w !! "session_id", w)) ∧
  (fst (getSessionId w) = None →
     App_render (fst (App_init w)) = LoginPage ∧
     fetchSong_begin (fst (App_init w)) = (Normal None, fst (App_init w))).
Proof.
  split; [|split].
  - intros id Hget Hne. unfold getSessionId. rewrite Hget.
    destruct (String.eqb_spec id "") as [Heq|_]; [contradiction|]. simpl.
    split; [reflexivity|]. split; [apply lookup_insert_eq|]. auto.
  - intros [Hget|Hget]; unfold getSessionId; rewrite Hget; reflexivity.
  - intros Hnone. unfold App_init.
    destruct (getSessionId w) as [session w'] eqn:Eg. simpl in *.
    subst session. split; reflexivity.
Qed.

Lemma getSessionId_resolves_witness :
  fst (getSessionId redirected_window) = Some "tok" ∧
  sessionStorage (snd (getSessionId redirected_window)) !! "session_id" = Some "tok" ∧
  getSessionId fresh_window = (None, fresh_window) ∧
  App_render (fst (App_init fresh_window)) = LoginPage.
Proof.
  destruct (getSessionId_resolves redirected_window) as [Hpresent _].
  destruct (Hpresent "tok" eq_refl) as (Hret & Hstore & _); [discriminate|].
  destruct (getSessionId_resolves fresh_window) as (_ & Habsent & Hlogin).
  split; [exact Hret|]. split; [exact Hstore|].
  split; [exact (Habsent (or_introl eq_refl))|].
  apply Hlogin. rewrite (Habsent (or_introl eq_refl)). reflexivity.
Defined.

(** C9 fails as stated: with [/?session=] the parameter is present, yet the
    resolver returns the older persisted token and leaves the parameter in the
    location. *)
Lemma getSessionId_ignores_empty_parameter :
  URLSearchParams_get "session" (location_search empty_param_window) = Some "" ∧
  fst (getSessionId empty_param_window) = Some "old" ∧
  fst (getSessionId empty_param_window) ≠ Some "" ∧
  location_search (snd (getSessionId empty_param_window)) = [("session", "")].
Proof.
  split; [reflexivity|]. 
  assert (Hold : fst (getSessionId empty_param_window) = Some "old").
  { simpl. apply lookup_singleton_eq. }
  split; [exact Hold|]. split; [rewrite Hold; discriminate|reflexivity].
Qed.

(** ** Drag end *)

(** C10: when the dragged item is dropped onto itself, [handleDragEnd] calls
    no [onReorder], whatever the props; as mounted by [App], the state (list
    contents and order, Committed flag) is left as it was. *)
Theorem handleDragEnd_on_itself (event : DragEndEvent) (s : State) :
  over event = Some (active event) →
  (∀ arrayMove songs onReorder,
     handleDragEnd arrayMove songs onReorder event s = (Normal tt, s)) ∧
  App_dragEnd event s = (Normal tt, s) ∧
  recommendations (exec (App_dragEnd event) s) = recommendations s ∧
  addedToQueue (exec (App_dragEnd event) s) = addedToQueue s.
Proof.
  intros Hover.
  assert (Hnone : ∀ arrayMove songs onReorder,
             handleDragEnd arrayMove songs onReorder event s = (Normal tt, s)).
  { intros arrayMove songs onReorder. unfold handleDragEnd.
    rewrite Hover, String.eqb_refl. reflexivity. }
  assert (Happ : App_dragEnd event s = (Normal tt, s)).
  { unfold App_dragEnd, mbind, M_bind, bind, get. apply Hnone. }
  split; [exact Hnone|]. split; [exact Happ|].
  unfold exec. rewrite Happ. split; reflexivity.
Qed.

Lemma handleDragEnd_on_itself_witness :
  App_dragEnd (mkDragEndEvent "b" (Some "b")) (showing [tA; tB; tC] ∅ true)
  = (Normal tt, showing [tA; tB; tC] ∅ true).
Proof.
  apply (handleDragEnd_on_itself (mkDragEndEvent "b" (Some "b"))
           (showing [tA; tB; tC] ∅ true) eq_refl).
Defined.

(** * Further properties of the handlers *)

(** ** Generation *)

Lemma handleGenerate_begin_pass s song :
  currentSong s = Some song → truthy (sessionId s) = true →
  handleGenerate_begin s =
  (Normal (Some (GetRecommendations (sessionId s) (Track.id song)
                   (moods s) (songCount s))),
   mkState (sessionId s) (currentSong s) (moods s) (songCount s) []
     (recentlyPlayedIds s) (replacingIds s) (isLoadingSong s) true
     (isAddingToQueue s) false None).
Proof.
  intros Hsong Htok. unfold handleGenerate_begin, mbind, M_bind, bind, get.
  rewrite Hsong, Htok. simpl. rewrite Hsong. reflexivity.
Qed.

Lemma handleGenerate_begin_stop s :
  is_some (currentSong s) = false ∨ truthy (sessionId s) = false →
  handleGenerate_begin s = (Normal None, s).
Proof.
  intros Hguard. unfold handleGenerate_begin, mbind, M_bind, bind, get.
  destruct (currentSong s) as [song|]; [|reflexivity].
  destruct Hguard as [H|H]; [discriminate|]. rewrite H. reflexivity.
Qed.

(** Without a current song, or without a session, [handleGenerate] issues no
    call and changes no state, whatever the reply would have been. *)
Theorem handleGenerate_guard (reply : completion RecommendData) (s : State) :
  is_some (currentSong s) = false ∨ truthy (sessionId s) = false →
  outcome handleGenerate_begin s = Normal None ∧
  handleGenerate reply s = (Normal tt, s).
Proof.
  intros Hguard. unfold outcome, handleGenerate, mbind, M_bind, bind.
  rewrite (handleGenerate_begin_stop s Hguard). split; reflexivity.
Qed.

Lemma handleGenerate_guard_witness :
  outcome handleGenerate_begin (initialState (Some "tok")) = Normal None ∧
  handleGenerate (Normal (mkRecommendData [tA] None)) (initialState (Some "tok"))
  = (Normal tt, initialState (Some "tok")).
Proof.
  apply (handleGenerate_guard (Normal (mkRecommendData [tA] None))
           (initialState (Some "tok"))).
  left. reflexivity.
Defined.

(** ** Queue submission *)

Lemma handleAddToQueue_begin_state s :
  handleAddToQueue_begin s =
  (Normal (AddToQueue (sessionId s) (ids (recommendations s))),
   mkState (sessionId s) (currentSong s) (moods s) (songCount s)
     (recommendations s) (recentlyPlayedIds s) (replacingIds s)
     (isLoadingSong s) (isLoadingRecs s) true (addedToQueue s) (error s)).
Proof. reflexivity. Qed.

Lemma handleAddToQueue_settle_ok {R} (r : R) s :
  handleAddToQueue_settle (Normal r) s =
  (Normal tt,
   mkState (sessionId s) (currentSong s) (moods s) (songCount s)
     (recommendations s) (recentlyPlayedIds s) (replacingIds s)
     (isLoadingSong s) (isLoadingRecs s) false true (error s)).
Proof. reflexivity. Qed.

Lemma handleAddToQueue_settle_fail {R} e s :
  handleAddToQueue_settle (R := R) (Throw e) s =
  (Normal tt,
   mkState (sessionId s) (currentSong s) (moods s) (songCount s)
     (recommendations s) (recentlyPlayedIds s) (replacingIds s)
     (isLoadingSong s) (isLoadingRecs s) false (addedToQueue s)
     (Some ("Could not add to queue: " +:+ message e))).
Proof. reflexivity. Qed.

(** A queue submission that fails leaves the list and the Committed flag as
    they were, shows the message in the banner and re-enables the button; the
    call it made carried the identifiers of the list in list order. *)
Theorem handleAddToQueue_failure (e : Error) (s : State) :
  outcome handleAddToQueue_begin s
    = Normal (AddToQueue (sessionId s) (ids (recommendations s))) ∧
  outcome (handleAddToQueue (R := JSON) (Throw e)) s = Normal tt ∧
  recommendations (exec (handleAddToQueue (R := JSON) (Throw e)) s)
    = recommendations s ∧
  addedToQueue (exec (handleAddToQueue (R := JSON) (Throw e)) s)
    = addedToQueue s ∧
  isAddingToQueue (exec (handleAddToQueue (R := JSON) (Throw e)) s) = false ∧
  error (exec (handleAddToQueue (R := JSON) (Throw e)) s)
    = Some ("Could not add to queue: " +:+ message e).
Proof. repeat split. Qed.

(** A reorder made while the submission is in flight is overtaken by the
    reply: the submission carried the old order, the list holds the new one,
    and the Committed flag ends up true. *)
Theorem commit_overtakes_reorder (newOrder : list Track) (s : State) :
  let s1 := exec handleAddToQueue_begin s in
  let s2 := exec (reorder newOrder) s1 in
  let s3 := exec (handleAddToQueue_settle (Normal JNull)) s2 in
  outcome handleAddToQueue_begin s
    = Normal (AddToQueue (sessionId s) (ids (recommendations s))) ∧
  addedToQueue s2 = false ∧
  recommendations s3 = newOrder ∧
  addedToQueue s3 = true.
Proof. repeat split. Qed.

(** ** Rejection *)

(** A replacement that fails leaves the list and the Committed flag as they
    were, takes the identifier out of the Replacing Set and shows the message
    in the banner. *)
Theorem failReject_keeps_list (trackId : string) (e : Error) (s : State) :
  outcome (failReject trackId e) s = Normal tt ∧
  recommendations (exec (failReject trackId e) s) = recommendations s ∧
  addedToQueue (exec (failReject trackId e) s) = addedToQueue s ∧
  replacingIds (exec (failReject trackId e) s) = replacingIds s ∖ {[trackId]} ∧
  (trackId ∉ replacingIds (exec (failReject trackId e) s)) ∧
  error (exec (failReject trackId e) s)
    = Some ("Could not replace track: " +:+ message e).
Proof.
  unfold outcome, exec. rewrite failReject_state. simpl.
  repeat split. rewrite elem_of_difference, elem_of_singleton. tauto.
Qed.

(** A reject of a row that was not being replaced, once failed, puts the
    Replacing Set back exactly: the row can be rejected again. *)
Theorem reject_failure_roundtrip (trackId : string) (e : Error) (s : State) :
  trackId ∉ replacingIds s →
  replacingIds (exec (handleReject trackId (Throw e)) s) = replacingIds s ∧
  recommendations (exec (handleReject trackId (Throw e)) s) = recommendations s.
Proof.
  intros Hnot. split; [|reflexivity].
  change (replacingIds (exec (handleReject trackId (Throw e)) s))
    with ((replacingIds s ∪ {[trackId]}) ∖ {[trackId]}).
  apply set_eq. intros i.
  rewrite elem_of_difference, elem_of_union, elem_of_singleton.
  split.
  - intros [[H|H] Hne]; [exact H|contradiction].
  - intros Hi. split; [left; exact Hi|]. intros ->. contradiction.
Qed.

Lemma reject_failure_roundtrip_witness :
  replacingIds (exec (handleReject "b" (Throw (mkError "boom")))
                  (showing [tA; tB] {["a"]} false)) = {["a"]}.
Proof.
  refine (proj1 (reject_failure_roundtrip "b" (mkError "boom")
                   (showing [tA; tB] {["a"]} false) _)).
  simpl. rewrite elem_of_singleton. discriminate.
Defined.

Lemma replace_id_idemp trackId x l :
  replace_id trackId x (replace_id trackId x l) = replace_id trackId x l.
Proof.
  unfold replace_id. rewrite map_map. apply map_ext. intros r.
  destruct (String.eqb_spec (Track.id r) trackId) as [Hr|Hr].
  - destruct (Track.id x =? trackId)%string; reflexivity.
  - destruct (String.eqb_spec (Track.id r) trackId); [contradiction|reflexivity].
Qed.

(** A completion delivered twice has the effect of one: the second delivery
    changes neither the list nor the Replacing Set. *)
Theorem completeReject_idempotent (trackId : string) (x : Track) (s : State) :
  exec (completeReject trackId x) (exec (completeReject trackId x) s)
  = exec (completeReject trackId x) s.
Proof.
  unfold exec. rewrite !completeReject_state. simpl.
  rewrite replace_id_idemp. f_equal.
  apply set_eq. intros i. rewrite !elem_of_difference. tauto.
Qed.

Lemma replace_id_comm a x b y l :
  a ≠ b → Track.id x ≠ b → Track.id y ≠ a →
  replace_id a x (replace_id b y l) = replace_id b y (replace_id a x l).
Proof.
  intros Hab Hx Hy. unfold replace_id. rewrite !map_map. apply map_ext.
  intros r.
  destruct (String.eqb_spec (Track.id r) b) as [Hrb|Hrb];
    destruct (String.eqb_spec (Track.id r) a) as [Hra|Hra].
  - congruence.
  - destruct (String.eqb_spec (Track.id y) a); [contradiction|].
    destruct (String.eqb_spec (Track.id r) b); [reflexivity|contradiction].
  - destruct (String.eqb_spec (Track.id x) b); [contradiction|reflexivity].
  - destruct (String.eqb_spec (Track.id r) a); [contradiction|].
    destruct (String.eqb_spec (Track.id r) b); [contradiction|reflexivity].
Qed.

(** Two replacements for different rows may arrive in either order: when
    neither replacement carries the other row's identifier, both orders end in
    the same state. *)
Theorem completeReject_commute (a b : string) (x y : Track) (s : State) :
  a ≠ b → Track.id x ≠ b → Track.id y ≠ a →
  exec (completeReject a x) (exec (completeReject b y) s)
  = exec (completeReject b y) (exec (completeReject a x) s).
Proof.
  intros Hab Hx Hy. unfold exec. rewrite !completeReject_state. simpl.
  rewrite (replace_id_comm a x b y _ Hab Hx Hy). f_equal.
  apply set_eq. intros i. rewrite !elem_of_difference. tauto.
Qed.

Lemma completeReject_commute_witness :
  exec (completeReject "a" tD) (exec (completeReject "b" tC) (showing [tA; tB] ∅ false))
  = exec (completeReject "b" tC) (exec (completeReject "a" tD) (showing [tA; tB] ∅ false)).
Proof.
  apply (completeReject_commute "a" "b" tD tC (showing [tA; tB] ∅ false));
    discriminate.
Defined.

(** * Drag and drop *)

Lemma findIndex_from_first {A} (p : A → bool) (l : list A) (i : Z) (k : nat) (x : A) :
  l !! k = Some x → p x = true →
  (∀ j y, (j < k)%nat → l !! j = Some y → p y = false) →
  findIndex_from p l i = (i + Z.of_nat k)%Z.
Proof.
  revert i k. induction l as [|y l IH]; intros i k Hk Hp Hbefore.
  - rewrite lookup_nil in Hk. discriminate.
  - destruct k as [|k]; simpl in *.
    + injection Hk as ->. rewrite Hp. lia.
    + rewrite (Hbefore 0%nat y) by (lia || reflexivity).
      rewrite (IH (i + 1)%Z k Hk Hp); [lia|].
      intros j z Hj Hz. apply (Hbefore (S j) z); [lia|exact Hz].
Qed.

Lemma findIndex_from_bounds {A} (p : A → bool) (l : list A) (i : Z) :
  findIndex_from p l i = (-1)%Z ∨
  (i ≤ findIndex_from p l i < i + Z.of_nat (length l))%Z.
Proof.
  revert i. induction l as [|y l IH]; intros i; simpl; [left; reflexivity|].
  destruct (p y); [right; lia|].
  destruct (IH (i + 1)%Z) as [H|H]; [left; exact H|right; lia].
Qed.

(** In a list with pairwise-distinct identifiers, [findIndex] by identifier
    gives the position of the track. *)
Lemma findIndex_by_id (l : list Track) (k : nat) (a : Track) :
  NoDup (ids l) → l !! k = Some a →
  findIndex (fun s => (Track.id s =? Track.id a)%string) l = Z.of_nat k.
Proof.
  intros Hnd Hk. unfold findIndex.
  rewrite (findIndex_from_first _ l 0 k a Hk (String.eqb_refl _)); [lia|].
  intros j y Hj Hy. apply String.eqb_neq. intros Heq.
  assert (Hjk : j = k); [|lia].
  apply (NoDup_lookup (ids l) j k (Track.id a)); [exact Hnd| |].
  - unfold ids. rewrite list_lookup_fmap, Hy. simpl. congruence.
  - unfold ids. rewrite list_lookup_fmap, Hk. reflexivity.
Qed.

(** [arrayMove] only rearranges. *)
Lemma dndkit_arrayMove_perm (array : list Track) (from to : Z) :
  dndkit_arrayMove array from to ≡ₚ array.
Proof.
  unfold dndkit_arrayMove.
  set (f := Z.to_nat _).
  destruct (array !! f) as [x|] eqn:Ef; [|reflexivity].
  set (rest := take f array ++ drop (S f) array).
  set (a := Z.to_nat _).
  rewrite <- Permutation_middle, take_drop.
  unfold rest. rewrite (Permutation_middle (take f array)).
  rewrite (take_drop_middle array f x Ef). reflexivity.
Qed.

(** For two positions of the array, the element at [from] lands at [to] and
    the others keep their relative order. *)
Lemma dndkit_arrayMove_lands (array : list Track) (from to : nat) :
  (from < length array)%nat → (to < length array)%nat →
  dndkit_arrayMove array (Z.of_nat from) (Z.of_nat to) !! to = array !! from ∧
  delete to (dndkit_arrayMove array (Z.of_nat from) (Z.of_nat to))
    = delete from array.
Proof.
  intros Hfrom Hto. unfold dndkit_arrayMove.
  replace (Z.of_nat to <? 0)%Z with false by lia.
  replace (Z.of_nat from <? 0)%Z with false by lia.
  rewrite Z.min_l by lia. rewrite Nat2Z.id.
  destruct (lookup_lt_is_Some_2 array from Hfrom) as [x Hx]. rewrite Hx.
  rewrite <- delete_take_drop.
  assert (Hlen : length (delete from array) = (length array - 1)%nat).
  { rewrite length_delete by eauto. reflexivity. }
  replace (Z.of_nat to <? 0)%Z with false by lia.
  rewrite Z.min_l by lia. rewrite Nat2Z.id.
  set (rest := delete from array) in *.
  assert (Htake : length (take to rest) = to) by (rewrite length_take; lia).
  split.
  - rewrite lookup_app_r by lia. rewrite Htake, Nat.sub_diag. reflexivity.
  - rewrite delete_take_drop.
    rewrite take_app_length' by (symmetry; exact Htake).
    rewrite drop_app_ge by lia. rewrite Htake.
    replace (S to - to)%nat with 1%nat by lia.
    change (drop 1 (x :: drop to rest)) with (drop to rest).
    apply take_drop.
Qed.

Lemma dndkit_arrayMove_map (g : Track → Track) (array : list Track) (from to : Z) :
  dndkit_arrayMove (map g array) from to = map g (dndkit_arrayMove array from to).
Proof.
  unfold dndkit_arrayMove. rewrite length_map.
  set (f := Z.to_nat _).
  change (map g array) with (g <$> array).
  rewrite list_lookup_fmap.
  destruct (array !! f) as [x|]; simpl; [|reflexivity].
  rewrite <- fmap_take, <- fmap_drop, <- fmap_app, length_fmap.
  set (a := Z.to_nat _).
  rewrite <- fmap_take, <- fmap_drop, map_app. reflexivity.
Qed.

Lemma App_dragEnd_moves (event : DragEndEvent) (o : string) (s : State) :
  over event = Some o → active event ≠ o →
  App_dragEnd event s =
  reorder (dndkit_arrayMove (recommendations s)
             (findIndex (fun t => (Track.id t =? active event)%string)
                (recommendations s))
             (findIndex (fun t => (Track.id t =? o)%string) (recommendations s)))
    s.
Proof.
  intros Hover Hne. unfold App_dragEnd, handleDragEnd, mbind, M_bind, bind, get.
  rewrite Hover. apply String.eqb_neq in Hne. rewrite Hne. reflexivity.
Qed.

Lemma App_dragEnd_same (event : DragEndEvent) (s : State) :
  over event = Some (active event) → App_dragEnd event s = (Normal tt, s).
Proof.
  intros Hover. unfold App_dragEnd, handleDragEnd, mbind, M_bind, bind, get.
  rewrite Hover, String.eqb_refl. reflexivity.
Qed.

Lemma dragEnd_rearranges_aux (event : DragEndEvent) (o : string) (s : State) :
  over event = Some o →
  recommendations (exec (App_dragEnd event) s) ≡ₚ recommendations s ∧
  (NoDup (ids (recommendations s)) →
     NoDup (ids (recommendations (exec (App_dragEnd event) s)))).
Proof.
  intros Hover. destruct (decide (active event = o)) as [Heq|Hne].
  - subst o. unfold exec. rewrite (App_dragEnd_same _ _ Hover). simpl. auto.
  - unfold exec. rewrite (App_dragEnd_moves _ _ _ Hover Hne).
    rewrite reorder_state. simpl.
    split; [apply dndkit_arrayMove_perm|].
    intros Hnd. unfold ids.
    change (map Track.id) with (fmap (M := list) Track.id).
    rewrite (dndkit_arrayMove_perm (recommendations s)). exact Hnd.
Qed.

(** A drop on a row of a non-empty list only rearranges it: the list after the
    drag is a permutation of the list before, so no track is lost, added or
    duplicated, and the Replacing Set is untouched. (Non-empty, as
    [RecommendationsList] renders nothing for an empty list.) *)
Theorem dragEnd_rearranges (event : DragEndEvent) (o : string) (s : State) :
  over event = Some o →
  recommendations s ≠ [] →
  outcome (App_dragEnd event) s = Normal tt ∧
  recommendations (exec (App_dragEnd event) s) ≡ₚ recommendations s ∧
  (NoDup (ids (recommendations s)) →
     NoDup (ids (recommendations (exec (App_dragEnd event) s)))) ∧
  replacingIds (exec (App_dragEnd event) s) = replacingIds s.
Proof.
  intros Hover _.
  destruct (dragEnd_rearranges_aux event o s Hover) as [Hperm Hnd].
  split; [|split; [exact Hperm|split; [exact Hnd|]]].
  - destruct (decide (active event = o)) as [Heq|Hne].
    + subst o. unfold outcome. rewrite (App_dragEnd_same _ _ Hover). reflexivity.
    + unfold outcome. rewrite (App_dragEnd_moves _ _ _ Hover Hne). reflexivity.
  - destruct (decide (active event = o)) as [Heq|Hne].
    + subst o. unfold exec. rewrite (App_dragEnd_same _ _ Hover). reflexivity.
    + unfold exec. rewrite (App_dragEnd_moves _ _ _ Hover Hne). reflexivity.
Qed.

Lemma dragEnd_rearranges_witness :
  recommendations (exec (App_dragEnd (mkDragEndEvent "a" (Some "c")))
                     (showing [tA; tB; tC] {["b"]} true))
  ≡ₚ [tA; tB; tC].
Proof.
  destruct (dragEnd_rearranges (mkDragEndEvent "a" (Some "c")) "c"
              (showing [tA; tB; tC] {["b"]} true) eq_refl)
    as (_ & Hperm & _); [discriminate|exact Hperm].
Defined.

(** In a list with pairwise-distinct identifiers, dropping the row at position
    [i] onto the row at position [j] puts the dragged track at position [j],
    keeps the relative order of all the others, and resets the Committed
    flag. *)
Theorem dragEnd_lands_on_target (s : State) (i j : nat) (a o : Track) :
  NoDup (ids (recommendations s)) →
  recommendations s !! i = Some a →
  recommendations s !! j = Some o →
  i ≠ j →
  let s' := exec (App_dragEnd (mkDragEndEvent (Track.id a) (Some (Track.id o)))) s in
  recommendations s' !! j = Some a ∧
  delete j (recommendations s') = delete i (recommendations s) ∧
  length (recommendations s') = length (recommendations s) ∧
  addedToQueue s' = false.
Proof.
  intros Hnd Hi Hj Hij s'. subst s'.
  assert (Hne : Track.id a ≠ Track.id o).
  { intros Heq. apply Hij.
    apply (NoDup_lookup (ids (recommendations s)) i j (Track.id a) Hnd);
      unfold ids; rewrite list_lookup_fmap.
    - rewrite Hi. reflexivity.
    - rewrite Hj. simpl. congruence. }
  unfold exec.
  rewrite (App_dragEnd_moves (mkDragEndEvent (Track.id a) (Some (Track.id o)))
             (Track.id o) s eq_refl Hne). cbn [active].
  rewrite (findIndex_by_id _ i a Hnd Hi), (findIndex_by_id _ j o Hnd Hj).
  rewrite reorder_state. simpl.
  destruct (dndkit_arrayMove_lands (recommendations s) i j) as [Hland Hrest].
  { eapply lookup_lt_Some, Hi. }
  { eapply lookup_lt_Some, Hj. }
  split; [rewrite Hland; exact Hi|]. split; [exact Hrest|].
  split; [|reflexivity].
  apply Permutation_length, dndkit_arrayMove_perm.
Qed.

Lemma dragEnd_lands_on_target_witness :
  let s' := exec (App_dragEnd (mkDragEndEvent "c" (Some "a")))
              (showing [tA; tB; tC] ∅ true) in
  recommendations s' !! 0%nat = Some tC ∧
  delete 0%nat (recommendations s') = [tA; tB] ∧
  length (recommendations s') = 3%nat ∧
  addedToQueue s' = false.
Proof.
  apply (dragEnd_lands_on_target (showing [tA; tB; tC] ∅ true) 2 0 tC tA).
  - exact NoDup_abc.
  - reflexivity.
  - reflexivity.
  - discriminate.
Defined.

(** A drop that lands on no row ([over] is [null]) of a non-empty list makes
    [handleDragEnd] throw a [TypeError] before any [onReorder]: the optional
    chaining guards the comparison, not the [findIndex] callback. *)
Theorem dragEnd_outside_throws (arrayMove : list Track → Z → Z → list Track)
    (songs : list Track) (onReorder : list Track → M unit)
    (event : DragEndEvent) (s : State) :
  over event = None →
  songs ≠ [] →
  handleDragEnd arrayMove songs onReorder event s
  = (Throw (TypeError "Cannot read properties of null (reading 'id')"), s).
Proof.
  intros Hover Hsongs. unfold handleDragEnd. rewrite Hover.
  destruct songs as [|t songs]; [contradiction|]. reflexivity.
Qed.

Lemma dragEnd_outside_throws_witness :
  handleDragEnd dndkit_arrayMove [tA; tB] handleReorder
    (mkDragEndEvent "a" None) (showing [tA; tB] ∅ true)
  = (Throw (TypeError "Cannot read properties of null (reading 'id')"),
     showing [tA; tB] ∅ true).
Proof.
  apply (dragEnd_outside_throws dndkit_arrayMove [tA; tB] handleReorder
           (mkDragEndEvent "a" None) (showing [tA; tB] ∅ true) eq_refl).
  discriminate.
Defined.

(** A row dragged while its replacement is in flight is still the one
    replaced: in a list with pairwise-distinct identifiers, wherever the drag
    left the rejected track, the replacement takes that position and every
    other position of the dragged list is kept. *)
Theorem reject_follows_dragged_row (event : DragEndEvent) (o : string)
    (trackId : string) (x : Track) (s : State) (k : nat) (t : Track) :
  over event = Some o →
  recommendations s ≠ [] →
  NoDup (ids (recommendations s)) →
  let s1 := exec (App_dragEnd event) (exec (beginReject trackId) s) in
  let s2 := exec (completeReject trackId x) s1 in
  recommendations s1 !! k = Some t →
  Track.id t = trackId →
  recommendations s2 !! k = Some x ∧
  (∀ j, j ≠ k → recommendations s2 !! j = recommendations s1 !! j) ∧
  recommendations s2 ≡ₚ replace_id trackId x (recommendations s).
Proof.
  intros Hover Hne Hnd s1 s2 Hk Hid.
  destruct (dragEnd_rearranges_aux event o (exec (beginReject trackId) s) Hover)
    as (Hperm & Hnd1).
  fold s1 in Hperm, Hnd1. rewrite beginReject_state in Hperm, Hnd1.
  simpl in Hperm, Hnd1. specialize (Hnd1 Hnd).
  subst s2. unfold exec. rewrite completeReject_state. simpl.
  split; [|split].
  - rewrite replace_id_lookup, Hk. simpl. rewrite Hid, String.eqb_refl.
    reflexivity.
  - intros j Hj. rewrite replace_id_lookup.
    destruct (recommendations s1 !! j) as [t'|] eqn:Ej; [|reflexivity]. simpl.
    destruct (String.eqb_spec (Track.id t') trackId) as [Heq|_]; [|reflexivity].
    exfalso. apply Hj.
    apply (NoDup_lookup (ids (recommendations s1)) j k trackId Hnd1);
      unfold ids; rewrite list_lookup_fmap.
    + rewrite Ej. simpl. congruence.
    + rewrite Hk. simpl. congruence.
  - unfold replace_id. change (map ?f) with (fmap (M := list) f).
    rewrite Hperm. reflexivity.
Qed.

Lemma reject_follows_dragged_row_witness :
  let s1 := exec (App_dragEnd (mkDragEndEvent "b" (Some "c")))
              (exec (beginReject "b") (showing [tA; tB; tC] ∅ false)) in
  let s2 := exec (completeReject "b" tD) s1 in
  recommendations s1 = [tA; tC; tB] ∧
  recommendations s2 !! 2%nat = Some tD ∧
  (∀ j, j ≠ 2%nat → recommendations s2 !! j = recommendations s1 !! j).
Proof.
  cbv zeta. split; [reflexivity|].
  destruct (reject_follows_dragged_row (mkDragEndEvent "b" (Some "c")) "c" "b" tD
              (showing [tA; tB; tC] ∅ false) 2 tB eq_refl)
    as (Hk & Hrest & _).
  - discriminate.
  - exact NoDup_abc.
  - reflexivity.
  - reflexivity.
  - split; [exact Hk|exact Hrest].
Defined.

(** * Gateway client: messages and requests *)

(** The error of a non-success response never has an empty message. *)
Theorem gateway_error_message_nonempty (transport : Request → completion Response)
    (c : ApiCall) :
  ∃ req,
    fst (perform transport c) = [req] ∧
    ∀ res, transport req = Normal res → Response.ok res = false →
      ∃ msg, snd (perform transport c) = Throw (mkError msg) ∧ msg ≠ "".
Proof.
  destruct (perform_is_api transport c) as (path & options & ->).
  exists (api_request path options). split; [apply api_one_fetch|].
  intros res Hres Hok. rewrite api_unfold, Hres, Hok. simpl.
  eexists. split; [reflexivity|].
  destruct (String.eqb_spec (catch_with (Response.text res) "Unknown error") "")
    as [_|Hne]; [discriminate|exact Hne].
Qed.

Lemma gateway_error_message_nonempty_witness :
  ∃ msg,
    snd (perform failing_server (GetCurrentSong (Some "tok"))) = Throw (mkError msg)
    ∧ msg ≠ "".
Proof.
  destruct (gateway_error_message_nonempty failing_server (GetCurrentSong (Some "tok")))
    as (req & _ & Hres).
  destruct (Hres (Response.mk false 500 (Normal "boom")
                    (Throw (mkError "Unexpected token b")))%N eq_refl eq_refl)
    as (msg & Hmsg & Hne).
  exists msg. split; [exact Hmsg|exact Hne].
Defined.

Lemma request_of_any transport c : fst (perform transport c) = request_of c.
Proof.
  unfold request_of.
  destruct c; unfold perform, getCurrentSong, getRecommendations, rejectTrack,
    addToQueue; rewrite !api_one_fetch; reflexivity.
Qed.

Lemma strings_inj (l1 l2 : list string) :
  map JString l1 = map JString l2 → l1 = l2.
Proof.
  revert l2. induction l1 as [|a l1 IH]; intros [|b l2] H; simpl in H;
    try discriminate.
  - reflexivity.
  - injection H as Hab H. f_equal; [exact Hab|apply IH, H].
Qed.

Lemma nullable_inj (o1 o2 : option string) : nullable o1 = nullable o2 → o1 = o2.
Proof. destruct o1, o2; simpl; intros H; congruence. Qed.

(** The request keeps every argument of the call: two calls with the same
    request are the same call, except that [getCurrentSong] sends a [null]
    session as the text [null], like the session named ["null"]. *)
Theorem request_determines_call (transport : Request → completion Response)
    (c1 c2 : ApiCall) :
  fst (perform transport c1) = fst (perform transport c2) →
  c1 = c2 ∨
  ∃ s1 s2, c1 = GetCurrentSong s1 ∧ c2 = GetCurrentSong s2 ∧
           template s1 = template s2.
Proof.
  rewrite !request_of_any. unfold request_of.
  destruct c1 as [s1|s1 t1 m1 n1|s1 r1 c1 p1|s1 i1];
    destruct c2 as [s2|s2 t2 m2 n2|s2 r2 c2 p2|s2 i2];
    unfold perform, getCurrentSong, getRecommendations, rejectTrack, addToQueue;
    rewrite !api_one_fetch; unfold api_request; simpl; intros H;
    try discriminate H.
  - right. exists s1, s2. split; [reflexivity|]. split; [reflexivity|].
    injection H as H. exact H.
  - left. injection H as Hs Ht Hm Hn.
    apply nullable_inj in Hs. apply strings_inj in Hm. congruence.
  - left. injection H as Hs Hr Hc Hp.
    apply nullable_inj in Hs. apply strings_inj in Hc. apply strings_inj in Hp.
    congruence.
  - left. injection H as Hs Hi.
    apply nullable_inj in Hs. apply strings_inj in Hi. congruence.
Qed.

Lemma request_determines_call_witness :
  RejectTrack (Some "tok") "b" ["a"; "b"] [] = RejectTrack (Some "tok") "b" ["a"; "b"] []
  ∨ ∃ s1 s2,
      RejectTrack (Some "tok") "b" ["a"; "b"] [] = GetCurrentSong s1 ∧
      RejectTrack (Some "tok") "b" ["a"; "b"] [] = GetCurrentSong s2 ∧
      template s1 = template s2.
Proof.
  apply (request_determines_call failing_server
           (RejectTrack (Some "tok") "b" ["a"; "b"] [])
           (RejectTrack (Some "tok") "b" ["a"; "b"] [])).
  reflexivity.
Defined.

(** A reject whose request comes back as a non-success with a readable,
    non-empty body shows that body in the banner after
    ["Could not replace track: "], keeps the list, and frees the row. *)
Theorem reject_failure_shows_server_text (transport : Request → completion Response)
    (trackId : string) (s : State) (call : ApiCall) (req : Request)
    (res : Response) (body : string) :
  outcome (handleReject_begin trackId) s = Normal call →
  fst (perform transport call) = [req] →
  transport req = Normal res →
  Response.ok res = false →
  Response.text res = Normal body →
  body ≠ "" →
  ∃ e,
    snd (perform transport call) = Throw e ∧
    error (exec (handleReject trackId (Throw e)) s)
      = Some ("Could not replace track: " +:+ body) ∧
    recommendations (exec (handleReject trackId (Throw e)) s) = recommendations s ∧
    trackId ∉ replacingIds (exec (handleReject trackId (Throw e)) s).
Proof.
  intros Hcall Hreq Hres Hok Htext Hne.
  destruct (perform_is_api transport call) as (path & options & Hapi).
  rewrite Hapi in Hreq |- *. rewrite api_one_fetch in Hreq.
  injection Hreq as <-.
  exists (mkError body). split.
  - rewrite api_unfold, Hres, Hok, Htext. simpl.
    destruct (String.eqb_spec body "") as [Heq|_]; [contradiction|reflexivity].
  - split; [reflexivity|]. split; [reflexivity|].
    change (replacingIds (exec (handleReject trackId (Throw (mkError body))) s))
      with ((replacingIds s ∪ {[trackId]}) ∖ {[trackId]}).
    rewrite elem_of_difference, elem_of_singleton. tauto.
Qed.

Lemma reject_failure_shows_server_text_witness :
  ∃ e,
    snd (perform failing_server (RejectTrack (Some "tok") "b" ["a"; "b"] [])) = Throw e ∧
    error (exec (handleReject "b" (Throw e)) (showing [tA; tB] ∅ false))
      = Some "Could not replace track: boom".
Proof.
  destruct (reject_failure_shows_server_text failing_server "b"
              (showing [tA; tB] ∅ false)
              (RejectTrack (Some "tok") "b" ["a"; "b"] [])
              (api_request "/reject"
                 (mkOptions (Some "POST") None
                    (Some (JObject [("session_id", JString "tok");
                                    ("rejected_track_id", JString "b");
                                    ("current_recommendations",
                                     JArray [JString "a"; JString "b"]);
                                    ("recently_played_ids", JArray [])]))))
              (Response.mk false 500 (Normal "boom")
                 (Throw (mkError "Unexpected token b")))%N
              "boom" eq_refl eq_refl eq_refl eq_refl eq_refl)
    as (e & He & Herr & _); [discriminate|].
  exists e. split; [exact He|exact Herr].
Defined.

(** * Selection widgets *)

Lemma includes_elem_of (x : string) (l : list string) :
  includes x l = true ↔ x ∈ l.
Proof.
  unfold includes. induction l as [|y l IH]; simpl.
  - split; [discriminate|]. intros H. apply elem_of_nil in H. destruct H.
  - rewrite elem_of_cons, orb_true_iff, IH, String.eqb_eq.
    split; intros [H|H]; auto.
Qed.

Lemma includes_not_elem_of (x : string) (l : list string) :
  includes x l = false ↔ x ∉ l.
Proof.
  rewrite <- includes_elem_of. destruct (includes x l); split; congruence.
Qed.

Lemma elem_of_without (x m : string) (l : list string) :
  m ∈ List.filter (fun y => negb (y =? x)%string) l ↔ m ∈ l ∧ m ≠ x.
Proof.
  rewrite !list_elem_of_In, filter_In, negb_true_iff, String.eqb_neq.
  reflexivity.
Qed.

Lemma NoDup_without (x : string) (l : list string) :
  NoDup l → NoDup (List.filter (fun y => negb (y =? x)%string) l).
Proof.
  induction 1 as [|y l Hy Hnd IH]; simpl; [constructor|].
  destruct (negb (y =? x)%string); [|exact IH].
  constructor; [|exact IH]. rewrite elem_of_without. tauto.
Qed.

Lemma without_absent (x : string) (l : list string) :
  x ∉ l → List.filter (fun y => negb (y =? x)%string) l = l.
Proof.
  induction l as [|y l IH]; simpl; intros Hnot; [reflexivity|].
  apply not_elem_of_cons in Hnot as [Hne Hnot].
  destruct (String.eqb_spec y x) as [Heq|_]; [congruence|].
  simpl. f_equal. apply IH, Hnot.
Qed.

Lemma toggle_moods (id : string) (s : State) :
  moods (exec (toggle (moods s) setMoods id) s) =
  if includes id (moods s)
  then List.filter (fun m => negb (m =? id)%string) (moods s)
  else moods s ++ [id].
Proof. unfold exec, toggle. destruct (includes id (moods s)); reflexivity. Qed.

(** A toggle flips whether [id] is selected and nothing else: every other
    mood keeps its membership, and a duplicate-free selection stays
    duplicate-free. *)
Theorem toggle_flips_one (id : string) (s : State) :
  let s' := exec (toggle (moods s) setMoods id) s in
  (id ∈ moods s' ↔ id ∉ moods s) ∧
  (∀ m, m ≠ id → (m ∈ moods s' ↔ m ∈ moods s)) ∧
  (NoDup (moods s) → NoDup (moods s')).
Proof.
  cbv zeta. rewrite toggle_moods.
  destruct (includes id (moods s)) eqn:Hin.
  - apply includes_elem_of in Hin. split; [|split].
    + rewrite elem_of_without. tauto.
    + intros m Hm. rewrite elem_of_without. tauto.
    + apply NoDup_without.
  - apply includes_not_elem_of in Hin. split; [|split].
    + rewrite elem_of_app, list_elem_of_singleton. tauto.
    + intros m Hm. rewrite elem_of_app, list_elem_of_singleton. tauto.
    + intros Hnd. apply NoDup_app. split; [exact Hnd|].
      split; [|apply NoDup_singleton].
      intros m Hm Hm'. apply list_elem_of_singleton in Hm'. congruence.
Qed.

(** Toggling a mood that is not selected and toggling it again gives back the
    selection as it was, order included. *)
Theorem toggle_twice_unselected (id : string) (s : State) :
  id ∉ moods s →
  let s1 := exec (toggle (moods s) setMoods id) s in
  moods (exec (toggle (moods s1) setMoods id) s1) = moods s.
Proof.
  intros Hnot. cbv zeta. rewrite !toggle_moods.
  apply includes_not_elem_of in Hnot as Hinc. rewrite Hinc.
  assert (Hin : includes id (moods s ++ [id]) = true).
  { apply includes_elem_of, elem_of_app. right. left. }
  rewrite Hin, List.filter_app. simpl. rewrite String.eqb_refl. simpl.
  rewrite app_nil_r. apply without_absent, Hnot.
Qed.

Lemma toggle_twice_unselected_witness :
  let s := exec (toggle [] setMoods "happy") ready in
  let s1 := exec (toggle (moods s) setMoods "chill") s in
  moods s1 = ["happy"; "chill"] ∧
  moods (exec (toggle (moods s1) setMoods "chill") s1) = ["happy"].
Proof.
  cbv zeta. split; [reflexivity|].
  apply (toggle_twice_unselected "chill" (exec (toggle [] setMoods "happy") ready)).
  simpl. intros H. apply list_elem_of_singleton in H. discriminate.
Defined.

(** Toggling a selected mood of a duplicate-free selection and toggling it
    again keeps the same moods but moves [id] to the end. *)
Theorem toggle_twice_selected (id : string) (s : State) :
  id ∈ moods s → NoDup (moods s) →
  let s1 := exec (toggle (moods s) setMoods id) s in
  let s2 := exec (toggle (moods s1) setMoods id) s1 in
  moods s2 = List.filter (fun m => negb (m =? id)%string) (moods s) ++ [id] ∧
  moods s2 ≡ₚ moods s.
Proof.
  intros Hin Hnd. cbv zeta. rewrite !toggle_moods.
  apply includes_elem_of in Hin as Hinc. rewrite Hinc.
  assert (Hout : includes id
            (List.filter (fun m => negb (m =? id)%string) (moods s)) = false).
  { apply includes_not_elem_of. rewrite elem_of_without. tauto. }
  rewrite Hout. split; [reflexivity|].
  clear Hinc Hout. induction Hnd as [|y l Hy Hnd IH].
  - apply elem_of_nil in Hin. destruct Hin.
  - simpl. destruct (String.eqb_spec y id) as [->|Hne]; simpl.
    + rewrite (without_absent id l Hy). symmetry. apply Permutation_cons_append.
    + apply elem_of_cons in Hin as [Hin|Hin]; [congruence|].
      constructor. apply IH, Hin.
Qed.

Lemma toggle_twice_selected_witness :
  let s := exec (setMoods ["happy"; "chill"; "dark"]) ready in
  let s1 := exec (toggle (moods s) setMoods "happy") s in
  moods (exec (toggle (moods s1) setMoods "happy") s1) = ["chill"; "dark"; "happy"].
Proof.
  cbv zeta.
  refine (proj1 (toggle_twice_selected "happy"
                   (exec (setMoods ["happy"; "chill"; "dark"]) ready) _ _)).
  - simpl. left.
  - simpl. apply NoDup_cons. split.
    + intros H. apply elem_of_cons in H as [H|H]; [discriminate|].
      apply list_elem_of_singleton in H. discriminate.
    + apply NoDup_cons. split.
      * intros H. apply list_elem_of_singleton in H. discriminate.
      * apply NoDup_singleton.
Defined.

Lemma toggle_flips_one_witness :
  let s := exec (setMoods ["happy"; "chill"]) ready in
  ("chill" ∉ moods (exec (toggle (moods s) setMoods "chill") s)) ∧
  NoDup (moods (exec (toggle (moods s) setMoods "chill") s)).
Proof.
  cbv zeta.
  destruct (toggle_flips_one "chill" (exec (setMoods ["happy"; "chill"]) ready))
    as (Hflip & _ & Hnd).
  split.
  - intros Hin. apply Hflip in Hin. apply Hin. simpl. right. left.
  - apply Hnd. simpl. apply NoDup_cons. split.
    + intros H. apply list_elem_of_singleton in H. discriminate.
    + apply NoDup_singleton.
Defined.

(** * The running application *)

(** ** Calls in flight *)

Lemma count_kind_app k l c :
  count_kind k (l ++ [c]) =
  (count_kind k l + (if decide (kind c = k) then 1 else 0))%nat.
Proof.
  unfold count_kind. rewrite List.filter_app, length_app. simpl.
  destruct (decide (kind c = k)) as [H|H].
  - rewrite bool_decide_eq_true_2 by exact H. reflexivity.
  - rewrite bool_decide_eq_false_2 by exact H. reflexivity.
Qed.

Lemma count_kind_settle k c l :
  c ∈ l →
  (count_kind k (settle_one c l) + (if decide (kind c = k) then 1 else 0))%nat
  = count_kind k l.
Proof.
  induction l as [|c' l IH]; intros Hin.
  - apply elem_of_nil in Hin. destruct Hin.
  - unfold count_kind in *. simpl.
    destruct (decide (c' = c)) as [->|Hne].
    + destruct (decide (kind c = k)) as [H|H].
      * rewrite bool_decide_eq_true_2 by exact H. simpl. lia.
      * rewrite bool_decide_eq_false_2 by exact H. lia.
    + apply elem_of_cons in Hin as [Hin|Hin]; [congruence|].
      simpl. destruct (bool_decide (kind c' = k)); simpl; rewrite <- (IH Hin); lia.
Qed.

Lemma settle_one_subset c l x : x ∈ settle_one c l → x ∈ l.
Proof.
  induction l as [|c' l IH]; simpl; [auto|].
  destruct (decide (c' = c)).
  - intros H. right. exact H.
  - rewrite !elem_of_cons. intros [H|H]; auto.
Qed.

Lemma Forall_settle_one (P : ApiCall → Prop) c l :
  Forall P l → Forall P (settle_one c l).
Proof.
  rewrite !Forall_forall. intros H x Hx. apply H, (settle_one_subset c), Hx.
Qed.

Lemma rejecting_app l c : rejecting (l ++ [c]) = rejecting l ++ rejecting [c].
Proof. unfold rejecting. apply omap_app. Qed.

Lemma rejecting_cons c l : rejecting (c :: l) = rejecting [c] ++ rejecting l.
Proof. unfold rejecting. apply (omap_app _ [c] l). Qed.

Lemma rejecting_settle_other c l :
  kind c ≠ KReject → rejecting (settle_one c l) = rejecting l.
Proof.
  intros Hk. induction l as [|c' l IH]; [reflexivity|]. cbn [settle_one].
  destruct (decide (c' = c)) as [->|Hne].
  - destruct c; try reflexivity. contradiction Hk. reflexivity.
  - rewrite (rejecting_cons c' l), (rejecting_cons c' (settle_one c l)), IH.
    reflexivity.
Qed.

Lemma elem_of_rejecting i l :
  i ∈ rejecting l ↔ ∃ sid cur rp, RejectTrack sid i cur rp ∈ l.
Proof.
  unfold rejecting. rewrite list_elem_of_omap. split.
  - intros (c & Hc & Hi). destruct c; try discriminate.
    injection Hi as ->. eauto.
  - intros (sid & cur & rp & H). eexists. split; [exact H|reflexivity].
Qed.

Lemma rejecting_settle sid i cur rp l :
  RejectTrack sid i cur rp ∈ l → NoDup (rejecting l) →
  NoDup (rejecting (settle_one (RejectTrack sid i cur rp) l)) ∧
  ∀ j, j ∈ rejecting (settle_one (RejectTrack sid i cur rp) l)
       ↔ j ∈ rejecting l ∧ j ≠ i.
Proof.
  induction l as [|c' l IH]; intros Hin Hnd.
  - apply elem_of_nil in Hin. destruct Hin.
  - cbn [settle_one].
    destruct (decide (c' = RejectTrack sid i cur rp)) as [->|Hne].
    + change (rejecting (RejectTrack sid i cur rp :: l)) with (i :: rejecting l)
        in Hnd |- *.
      apply NoDup_cons in Hnd as [Hi Hnd]. split; [exact Hnd|].
      intros j. rewrite elem_of_cons. split.
      * intros Hj. split; [right; exact Hj|]. intros ->. contradiction.
      * intros [[Hj|Hj] Hji]; [contradiction|exact Hj].
    + apply elem_of_cons in Hin as [Hin|Hin]; [congruence|].
      destruct c' as [s'|s' t' m' n'|s' i' c' p'|s' t'].
      * change (rejecting (GetCurrentSong s' :: ?x)) with (rejecting x) in *.
        apply IH; assumption.
      * change (rejecting (GetRecommendations s' t' m' n' :: ?x))
          with (rejecting x) in *.
        apply IH; assumption.
      * change (rejecting (RejectTrack s' i' c' p' :: ?x))
          with (i' :: rejecting x) in *.
        apply NoDup_cons in Hnd as [Hi' Hnd].
        destruct (IH Hin Hnd) as [IHnd IHiff].
        assert (Hii : i' ≠ i).
        { intros ->. apply Hi'. apply elem_of_rejecting. eauto. }
        split.
        -- apply NoDup_cons. split; [|exact IHnd].
           rewrite IHiff. tauto.
        -- intros j. rewrite !elem_of_cons, IHiff. split.
           ++ intros [->|[Hj Hji]]; auto.
           ++ intros [[->|Hj] Hji]; auto.
      * change (rejecting (AddToQueue s' t' :: ?x)) with (rejecting x) in *.
        apply IH; assumption.
Qed.

(** ** What every reachable world satisfies *)

Lemma controls_shown_inv s :
  controls_shown s = true →
  truthy (sessionId s) = true ∧ ∃ song, currentSong s = Some song.
Proof.
  unfold controls_shown, App_render.
  destruct (truthy (sessionId s)); simpl; [|discriminate].
  destruct (currentSong s) as [song|]; simpl; [eauto|discriminate].
Qed.

Lemma list_shown_inv s : list_shown s = true → truthy (sessionId s) = true.
Proof.
  unfold list_shown, App_render.
  destruct (truthy (sessionId s)); simpl; [reflexivity|discriminate].
Qed.

Lemma boot_inv session : Inv session (boot session).
Proof.
  unfold boot, fetchSong_begin, mbind, M_bind, bind, get. simpl.
  destruct (truthy session) eqn:Htok; simpl.
  - constructor; simpl; try reflexivity.
    + congruence.
    + repeat split; [constructor| |lia|lia].
      intros m Hm. apply elem_of_nil in Hm. destruct Hm.
    + repeat constructor.
    + constructor.
    + intros i. split; intros H; [apply elem_of_empty in H|apply elem_of_nil in H];
        destruct H.
  - constructor; simpl; try reflexivity.
    + repeat split; [constructor| |lia|lia].
      intros m Hm. apply elem_of_nil in Hm. destruct Hm.
    + constructor.
    + constructor.
    + intros i. split; intros H; [apply elem_of_empty in H|apply elem_of_nil in H];
        destruct H.
Qed.

Lemma count_kind_in c l : c ∈ l → (1 ≤ count_kind (kind c) l)%nat.
Proof.
  intros Hin. rewrite <- (count_kind_settle (kind c) c l Hin).
  destruct (decide (kind c = kind c)); [lia|congruence].
Qed.

Lemma in_flight_elem c w : in_flight c w = true → c ∈ inflight w.
Proof. unfold in_flight. apply bool_decide_eq_true_1. Qed.

(** Settling a call that is not a reject, with a handler that leaves the
    session, the configuration and the Replacing Set alone. *)
Lemma settle_inv session s fl c s' :
  Inv session (mkWorld s fl) → c ∈ fl → kind c ≠ KReject →
  sessionId s' = sessionId s → moods s' = moods s → songCount s' = songCount s →
  replacingIds s' = replacingIds s →
  (kind c = KSong → isLoadingSong s' = false) →
  (kind c ≠ KSong → isLoadingSong s' = isLoadingSong s) →
  (kind c = KRecommend → isLoadingRecs s' = false) →
  (kind c ≠ KRecommend → isLoadingRecs s' = isLoadingRecs s) →
  (kind c = KQueue → isAddingToQueue s' = false) →
  (kind c ≠ KQueue → isAddingToQueue s' = isAddingToQueue s) →
  Inv session (mkWorld s' (settle_one c fl)).
Proof.
  intros [Hs Hout Hcfg Hcalls Hnd Hrep Hsong Hrecs Hq] Hin Hk
    Es Em En Er Hls Hls' Hlr Hlr' Hla Hla'. simpl in *.
  assert (Hcount : ∀ k, kind c = k →
            count_kind k fl = 1%nat → count_kind k (settle_one c fl) = 0%nat).
  { intros k <- H1. pose proof (count_kind_settle (kind c) c fl Hin) as H.
    destruct (decide (kind c = kind c)); [lia|congruence]. }
  assert (Hother : ∀ k, kind c ≠ k →
            count_kind k (settle_one c fl) = count_kind k fl).
  { intros k Hne. pose proof (count_kind_settle k c fl Hin) as H.
    destruct (decide (kind c = k)); [congruence|lia]. }
  assert (Hone : ∀ k (b : bool), kind c = k →
            count_kind k fl = (if b then 1%nat else 0%nat) →
            count_kind k fl = 1%nat).
  { intros k b <- Hb. pose proof (count_kind_in c fl Hin). destruct b; lia. }
  constructor; simpl.
  - congruence.
  - intros Hf. rewrite (Hout Hf) in Hin. apply elem_of_nil in Hin. destruct Hin.
  - rewrite Em, En. exact Hcfg.
  - apply Forall_settle_one, Hcalls.
  - rewrite rejecting_settle_other by exact Hk. exact Hnd.
  - intros i. rewrite rejecting_settle_other by exact Hk. rewrite Er. apply Hrep.
  - destruct (decide (kind c = KSong)) as [H|H].
    + rewrite (Hls H). apply (Hcount _ H), (Hone _ _ H Hsong).
    + rewrite (Hother _ H), (Hls' H). exact Hsong.
  - destruct (decide (kind c = KRecommend)) as [H|H].
    + rewrite (Hlr H). apply (Hcount _ H), (Hone _ _ H Hrecs).
    + rewrite (Hother _ H), (Hlr' H). exact Hrecs.
  - destruct (decide (kind c = KQueue)) as [H|H].
    + rewrite (Hla H). apply (Hcount _ H), (Hone _ _ H Hq).
    + rewrite (Hother _ H), (Hla' H). exact Hq.
Qed.

(** A handler that leaves everything the invariant reads alone. *)
Lemma frame_inv session s fl s' :
  Inv session (mkWorld s fl) →
  sessionId s' = sessionId s → config_ok (moods s') (songCount s') →
  replacingIds s' = replacingIds s →
  isLoadingSong s' = isLoadingSong s →
  isLoadingRecs s' = isLoadingRecs s →
  isAddingToQueue s' = isAddingToQueue s →
  Inv session (mkWorld s' fl).
Proof.
  intros [Hs Hout _ Hcalls Hnd Hrep Hsong Hrecs Hq] Es Hcfg Er Hls Hlr Hla.
  simpl in *. constructor; simpl.
  - congruence.
  - exact Hout.
  - exact Hcfg.
  - exact Hcalls.
  - exact Hnd.
  - intros i. rewrite Er. apply Hrep.
  - rewrite Hls. exact Hsong.
  - rewrite Hlr. exact Hrecs.
  - rewrite Hla. exact Hq.
Qed.

(** Issuing a call that is not a reject. *)
Lemma issue_inv session s fl c s' :
  Inv session (mkWorld s fl) → kind c ≠ KReject → kind c ≠ KSong →
  truthy session = true →
  call_session c = session → call_config_ok c →
  sessionId s' = sessionId s → moods s' = moods s → songCount s' = songCount s →
  replacingIds s' = replacingIds s →
  isLoadingSong s' = isLoadingSong s →
  (kind c = KRecommend → isLoadingRecs s = false ∧ isLoadingRecs s' = true) →
  (kind c ≠ KRecommend → isLoadingRecs s' = isLoadingRecs s) →
  (kind c = KQueue → isAddingToQueue s = false ∧ isAddingToQueue s' = true) →
  (kind c ≠ KQueue → isAddingToQueue s' = isAddingToQueue s) →
  Inv session (mkWorld s' (fl ++ [c])).
Proof.
  intros [Hs Hout Hcfg Hcalls Hnd Hrep Hsong Hrecs Hq] Hk Hk' Htok Hc Hcc
    Es Em En Er Hls Hlr Hlr' Hla Hla'. simpl in *.
  assert (Hrej : rejecting (fl ++ [c]) = rejecting fl).
  { rewrite rejecting_app. destruct c; simpl; try apply app_nil_r.
    contradiction Hk. reflexivity. }
  constructor; simpl.
  - congruence.
  - congruence.
  - rewrite Em, En. exact Hcfg.
  - apply Forall_app. split; [exact Hcalls|]. constructor; [auto|constructor].
  - rewrite Hrej. exact Hnd.
  - intros i. rewrite Hrej, Er. apply Hrep.
  - rewrite count_kind_app, Hls.
    destruct (decide (kind c = KSong)); [contradiction|lia].
  - rewrite count_kind_app. destruct (decide (kind c = KRecommend)) as [H|H].
    + destruct (Hlr H) as [H0 H1]. rewrite H1. rewrite H0 in Hrecs. lia.
    + rewrite (Hlr' H). lia.
  - rewrite count_kind_app. destruct (decide (kind c = KQueue)) as [H|H].
    + destruct (Hla H) as [H0 H1]. rewrite H1. rewrite H0 in Hq. lia.
    + rewrite (Hla' H). lia.
Qed.

Lemma App_dragEnd_cases event s :
  exec (App_dragEnd event) s = s ∨
  ∃ newOrder, exec (App_dragEnd event) s = exec (reorder newOrder) s.
Proof.
  unfold exec, App_dragEnd, handleDragEnd, mbind, M_bind, bind, get.
  destruct (over event) as [o|].
  - destruct (negb (active event =? o)%string); [|left; reflexivity].
    right. eexists. reflexivity.
  - destruct (recommendations s); [|left; reflexivity].
    right. eexists. reflexivity.
Qed.

Lemma OPTIONS_in_range n : n ∈ OPTIONS → (1 ≤ n ≤ 25)%Z.
Proof.
  unfold OPTIONS. rewrite !elem_of_cons.
  intros [->|[->|[->|[->|H]]]]; try lia. apply elem_of_nil in H. destruct H.
Qed.

Lemma fire_inv session ev w w' :
  Inv session w → fire ev w = Some w' → Inv session w'.
Proof.
  destruct w as [s fl]. intros HI Hfire.
  destruct ev as [call reply|id|n|v| |call reply|trackId|call reply| |call reply
                 |event| ]; unfold fire in Hfire; cbn [st inflight] in Hfire.
  - (* SongSettled *)
    destruct call as [sid| | | ]; try discriminate.
    destruct (in_flight _ _) eqn:Hin; [|discriminate].
    injection Hfire as <-. apply in_flight_elem in Hin. simpl in Hin.
    apply (settle_inv session s); try assumption; try discriminate;
      try solve [intros H; discriminate H];
      try solve [intros H; exfalso; apply H; reflexivity];
      try (intros _); destruct reply; reflexivity.
  - (* ToggleMood *)
    destruct (controls_shown s && includes id mood_ids) eqn:Hc; [|discriminate].
    injection Hfire as <-. apply andb_true_iff in Hc as [_ Hid].
    apply includes_elem_of in Hid.
    pose proof (inv_config _ _ HI) as (Hnd & Hsub & Hn). simpl in Hnd, Hsub, Hn.
    apply (frame_inv session s); [exact HI| | | | | | ];
      try (unfold exec, toggle; destruct (includes id (moods s)); reflexivity).
    rewrite toggle_moods.
    replace (songCount (exec (toggle (moods s) setMoods id) s)) with (songCount s)
      by (unfold exec, toggle; destruct (includes id (moods s)); reflexivity).
    destruct (includes id (moods s)) eqn:Hinc.
    + split; [apply NoDup_without, Hnd|]. split; [|exact Hn].
      intros m Hm. apply elem_of_without in Hm as [Hm _]. apply Hsub, Hm.
    + apply includes_not_elem_of in Hinc.
      split; [|split; [|exact Hn]].
      * apply NoDup_app. split; [exact Hnd|]. split; [|apply NoDup_singleton].
        intros m Hm Hm'. apply list_elem_of_singleton in Hm'. congruence.
      * intros m Hm. apply elem_of_app in Hm as [Hm|Hm]; [apply Hsub, Hm|].
        apply list_elem_of_singleton in Hm. subst m. exact Hid.
  - (* PickOption *)
    destruct (controls_shown s && bool_decide (n ∈ OPTIONS)) eqn:Hc; [|discriminate].
    injection Hfire as <-. apply andb_true_iff in Hc as [_ Hn].
    apply bool_decide_eq_true_1, OPTIONS_in_range in Hn.
    pose proof (inv_config _ _ HI) as (Hnd & Hsub & _).
    apply (frame_inv session s); [exact HI| | | | | | ]; try reflexivity.
    simpl. repeat split; try assumption; lia.
  - (* CustomCount *)
    destruct (controls_shown s) eqn:Hc; [|discriminate].
    injection Hfire as <-.
    pose proof (inv_config _ _ HI) as (Hnd & Hsub & Hn). simpl in Hnd, Hsub, Hn.
    destruct v as [v|]; simpl.
    + destruct ((0 <? v)%Z && (v <=? 25)%Z) eqn:Hv.
      * apply andb_true_iff in Hv as [H0 H25].
        apply (frame_inv session s); [exact HI| | | | | | ]; try reflexivity.
        simpl. repeat split; try assumption; lia.
      * destruct s; exact HI.
    + destruct s; exact HI.
  - (* ClickGenerate *)
    destruct (controls_shown s && negb (isLoadingRecs s)) eqn:Hc; [|discriminate].
    apply andb_true_iff in Hc as [Hshown Hidle].
    apply controls_shown_inv in Hshown as (Htok & song & Hsong).
    apply negb_true_iff in Hidle.
    rewrite (handleGenerate_begin_pass s song Hsong Htok) in Hfire.
    injection Hfire as <-.
    pose proof (inv_session _ _ HI) as Hs. simpl in Hs.
    apply (issue_inv session s); try assumption; try discriminate; try reflexivity;
      try solve [intros H; discriminate H];
      try solve [intros H; exfalso; apply H; reflexivity].
    + congruence.
    + exact (inv_config _ _ HI).
    + intros _. split; [exact Hidle|reflexivity].
  - (* GenerateSettled *)
    destruct call as [ |sid cur ms n| | ]; try discriminate.
    destruct (in_flight _ _) eqn:Hin; [|discriminate].
    injection Hfire as <-. apply in_flight_elem in Hin. simpl in Hin.
    apply (settle_inv session s); try assumption; try discriminate;
      try solve [intros H; discriminate H];
      try solve [intros H; exfalso; apply H; reflexivity];
      try (intros _); destruct reply; reflexivity.
  - (* ClickReject *)
    destruct (list_shown s && includes trackId (ids (recommendations s))
              && negb (bool_decide (trackId ∈ replacingIds s))) eqn:Hc;
      [|discriminate].
    apply andb_true_iff in Hc as [Hc Hfree]. apply andb_true_iff in Hc as [Hshown _].
    apply list_shown_inv in Hshown.
    apply negb_true_iff, bool_decide_eq_false_1 in Hfree.
    change (handleReject_begin trackId s)
      with (Normal (RejectTrack (sessionId s) trackId (ids (recommendations s))
                      (recentlyPlayedIds s)),
            exec (beginReject trackId) s) in Hfire.
    injection Hfire as <-.
    destruct HI as [Hs Hout Hcfg Hcalls Hnd Hrep Hsong Hrecs Hq]. simpl in *.
    constructor; simpl.
    + exact Hs.
    + congruence.
    + exact Hcfg.
    + apply Forall_app. split; [exact Hcalls|].
      constructor; [split; [exact Hs|exact I]|constructor].
    + rewrite rejecting_app. apply NoDup_app. split; [exact Hnd|].
      split; [|apply NoDup_singleton].
      intros i Hi Hi'. apply list_elem_of_singleton in Hi'. subst i.
      apply Hfree, Hrep, Hi.
    + intros i. rewrite rejecting_app, elem_of_app, elem_of_union, Hrep.
      change (rejecting [RejectTrack (sessionId s) trackId
                           (ids (recommendations s)) (recentlyPlayedIds s)])
        with [trackId].
      rewrite elem_of_singleton, list_elem_of_singleton. reflexivity.
    + rewrite count_kind_app. simpl. lia.
    + rewrite count_kind_app. simpl. lia.
    + rewrite count_kind_app. simpl. lia.
  - (* RejectSettled *)
    destruct call as [ | |sid i cur rp| ]; try discriminate.
    destruct (in_flight _ _) eqn:Hin; [|discriminate].
    injection Hfire as <-. apply in_flight_elem in Hin. simpl in Hin.
    destruct HI as [Hs Hout Hcfg Hcalls Hnd Hrep Hsong Hrecs Hq]. simpl in *.
    destruct (rejecting_settle sid i cur rp fl Hin Hnd) as [Hnd' Hiff].
    assert (Hother : ∀ k, k ≠ KReject →
              count_kind k (settle_one (RejectTrack sid i cur rp) fl)
              = count_kind k fl).
    { intros k Hk.
      pose proof (count_kind_settle k (RejectTrack sid i cur rp) fl Hin) as H.
      simpl in H. destruct (decide (KReject = k)); [congruence|lia]. }
    constructor; simpl.
    + destruct reply; exact Hs.
    + intros Hf. rewrite (Hout Hf) in Hin. apply elem_of_nil in Hin. destruct Hin.
    + destruct reply; exact Hcfg.
    + apply Forall_settle_one, Hcalls.
    + exact Hnd'.
    + intros j. rewrite Hiff, <- Hrep.
      replace (replacingIds (exec (handleReject_settle i reply) s))
        with (replacingIds s ∖ {[i]}) by (destruct reply; reflexivity).
      rewrite elem_of_difference, elem_of_singleton. reflexivity.
    + rewrite Hother by discriminate. destruct reply; exact Hsong.
    + rewrite Hother by discriminate. destruct reply; exact Hrecs.
    + rewrite Hother by discriminate. destruct reply; exact Hq.
  - (* ClickAddToQueue *)
    destruct (list_shown s && negb (addedToQueue s) && negb (isAddingToQueue s))
      eqn:Hc; [|discriminate].
    apply andb_true_iff in Hc as [Hc Hidle]. apply andb_true_iff in Hc as [Hshown _].
    apply list_shown_inv in Hshown. apply negb_true_iff in Hidle.
    rewrite handleAddToQueue_begin_state in Hfire. injection Hfire as <-.
    pose proof (inv_session _ _ HI) as Hs. simpl in Hs.
    apply (issue_inv session s); try assumption; try discriminate; try reflexivity;
      try solve [intros H; discriminate H];
      try solve [intros H; exfalso; apply H; reflexivity].
    + congruence.
    + intros _. split; [exact Hidle|reflexivity].
  - (* AddToQueueSettled *)
    destruct call as [ | | |sid tids]; try discriminate.
    destruct (in_flight _ _) eqn:Hin; [|discriminate].
    injection Hfire as <-. apply in_flight_elem in Hin. simpl in Hin.
    apply (settle_inv session s); try assumption; try discriminate;
      try solve [intros H; discriminate H];
      try solve [intros H; exfalso; apply H; reflexivity];
      try (intros _); destruct reply; reflexivity.
  - (* DragEnd *)
    match type of Hfire with (if ?c then _ else _) = _ =>
      destruct c; [|discriminate] end.
    injection Hfire as <-.
    destruct (App_dragEnd_cases event s) as [->|[newOrder ->]];
      [destruct s; exact HI|].
    apply (frame_inv session s); [exact HI| | | | | | ]; try reflexivity.
    exact (inv_config _ _ HI).
  - (* DismissError *)
    destruct (banner_shown s); [|discriminate].
    injection Hfire as <-.
    apply (frame_inv session s); [exact HI| | | | | | ]; try reflexivity.
    exact (inv_config _ _ HI).
Qed.

Lemma fire_all_inv session evs w w' :
  Inv session w → fire_all evs w = Some w' → Inv session w'.
Proof.
  revert w. induction evs as [|ev evs IH]; intros w HI Hrun; simpl in Hrun.
  - injection Hrun as <-. exact HI.
  - destruct (fire ev w) as [w1|] eqn:Hfire; [|discriminate].
    apply (IH w1); [|exact Hrun]. apply (fire_inv session ev w w1 HI Hfire).
Qed.

(** In every world the application reaches, the Replacing Set is exactly the
    set of identifiers with a reject in flight, and no identifier has two
    rejects in flight: a row shows its placeholder from the click until its
    own reply, success or failure. *)
Theorem replacing_set_tracks_rejects (session : option string)
    (evs : list Event) (w : World) :
  fire_all evs (boot session) = Some w →
  (∀ i, i ∈ replacingIds (st w)
        ↔ ∃ sid cur rp, RejectTrack sid i cur rp ∈ inflight w) ∧
  NoDup (rejecting (inflight w)).
Proof.
  intros Hrun.
  destruct (fire_all_inv session evs _ w (boot_inv session) Hrun)
    as [_ _ _ _ Hnd Hrep _ _ _].
  split; [|exact Hnd]. intros i. rewrite Hrep. apply elem_of_rejecting.
Qed.

Lemma replacing_set_tracks_rejects_witness :
  ∃ w, fire_all session_script (boot (Some "tok")) = Some w ∧
       (∀ i, i ∈ replacingIds (st w)
             ↔ ∃ sid cur rp, RejectTrack sid i cur rp ∈ inflight w).
Proof.
  destruct (fire_all session_script (boot (Some "tok"))) as [w|] eqn:Hrun;
    [|vm_compute in Hrun; discriminate Hrun].
  exists w. split; [reflexivity|].
  exact (proj1 (replacing_set_tracks_rejects (Some "tok") session_script w Hrun)).
Defined.

(** In every world the application reaches, each of the three loading flags
    is true exactly while its call is in flight, and there is never more than
    one song fetch, one generation or one queue submission in flight. *)
Theorem loading_flags_track_calls (session : option string)
    (evs : list Event) (w : World) :
  fire_all evs (boot session) = Some w →
  count_kind KSong (inflight w) = (if isLoadingSong (st w) then 1 else 0)%nat ∧
  count_kind KRecommend (inflight w)
    = (if isLoadingRecs (st w) then 1 else 0)%nat ∧
  count_kind KQueue (inflight w)
    = (if isAddingToQueue (st w) then 1 else 0)%nat.
Proof.
  intros Hrun.
  destruct (fire_all_inv session evs _ w (boot_inv session) Hrun)
    as [_ _ _ _ _ _ Hsong Hrecs Hq].
  auto.
Qed.

Lemma loading_flags_track_calls_witness :
  ∃ w, fire_all session_script (boot (Some "tok")) = Some w ∧
       count_kind KRecommend (inflight w)
         = (if isLoadingRecs (st w) then 1 else 0)%nat.
Proof.
  destruct (fire_all session_script (boot (Some "tok"))) as [w|] eqn:Hrun;
    [|vm_compute in Hrun; discriminate Hrun].
  exists w. split; [reflexivity|].
  exact (proj1 (proj2 (loading_flags_track_calls (Some "tok") session_script w Hrun))).
Defined.

(** In every world the application reaches, the session cell still holds the
    resolved token, the selected moods are duplicate-free and taken from
    [MOODS], the song count is between 1 and 25, and every call in flight
    carries that token and, for a generation, such a configuration. *)
Theorem requests_are_well_formed (session : option string)
    (evs : list Event) (w : World) :
  fire_all evs (boot session) = Some w →
  sessionId (st w) = session ∧
  config_ok (moods (st w)) (songCount (st w)) ∧
  ∀ c, c ∈ inflight w →
    call_session c = session ∧ truthy session = true ∧ call_config_ok c.
Proof.
  intros Hrun.
  destruct (fire_all_inv session evs _ w (boot_inv session) Hrun)
    as [Hs Hout Hcfg Hcalls _ _ _ _ _].
  split; [exact Hs|]. split; [exact Hcfg|].
  intros c Hc. rewrite Forall_forall in Hcalls.
  destruct (Hcalls c Hc) as [H1 H2]. split; [exact H1|]. split; [|exact H2].
  destruct (truthy session) eqn:Htok; [reflexivity|].
  rewrite (Hout eq_refl) in Hc. apply elem_of_nil in Hc. destruct Hc.
Qed.

Lemma requests_are_well_formed_witness :
  ∃ w, fire_all session_script (boot (Some "tok")) = Some w ∧
       sessionId (st w) = Some "tok" ∧
       config_ok (moods (st w)) (songCount (st w)).
Proof.
  destruct (fire_all session_script (boot (Some "tok"))) as [w|] eqn:Hrun;
    [|vm_compute in Hrun; discriminate Hrun].
  exists w. split; [reflexivity|].
  destruct (requests_are_well_formed (Some "tok") session_script w Hrun)
    as (Hs & Hcfg & _).
  split; [exact Hs|exact Hcfg].
Defined.

Lemma logged_out_no_event session ev :
  truthy session = false → fire ev (boot session) = None.
Proof.
  intros Htok.
  assert (Hboot : boot session = mkWorld (initialState session) []).
  { unfold boot, fetchSong_begin, mbind, M_bind, bind, get. simpl.
    rewrite Htok. reflexivity. }
  rewrite Hboot.
  assert (Hc : controls_shown (initialState session) = false).
  { unfold controls_shown, App_render. simpl. rewrite Htok. reflexivity. }
  assert (Hl : list_shown (initialState session) = false).
  { unfold list_shown, App_render. simpl. rewrite Htok. reflexivity. }
  assert (Hb : banner_shown (initialState session) = false).
  { unfold banner_shown, App_render. simpl. rewrite Htok. reflexivity. }
  destruct ev as [call reply|id|n|v| |call reply|trackId|call reply| |call reply
                 |event| ]; unfold fire; cbn [st inflight];
    rewrite ?Hc, ?Hl, ?Hb; try reflexivity;
    destruct call; reflexivity.
Qed.

(** Without a session (a null or empty token) the application is inert: no
    call is in flight after the mount, no event can fire, and the state stays
    the initial one. *)
Theorem logged_out_is_inert (session : option string) (evs : list Event)
    (w : World) :
  truthy session = false →
  fire_all evs (boot session) = Some w →
  evs = [] ∧ w = mkWorld (initialState session) [] ∧
  App_render (st w) = LoginPage.
Proof.
  intros Htok Hrun.
  assert (Hboot : boot session = mkWorld (initialState session) []).
  { unfold boot, fetchSong_begin, mbind, M_bind, bind, get. simpl.
    rewrite Htok. reflexivity. }
  destruct evs as [|ev evs]; simpl in Hrun.
  - injection Hrun as <-. split; [reflexivity|]. split; [exact Hboot|].
    rewrite Hboot. unfold App_render. simpl. rewrite Htok. reflexivity.
  - rewrite (logged_out_no_event session ev Htok) in Hrun. discriminate.
Qed.

Lemma logged_out_is_inert_witness :
  fire_all [] (boot None) = Some (mkWorld (initialState None) []) ∧
  fire_all [ClickGenerate] (boot (Some "")) = None.
Proof.
  split.
  - destruct (logged_out_is_inert None [] (boot None) eq_refl eq_refl)
      as (_ & Hw & _).
    change (Some (boot None) = Some (mkWorld (initialState None) [])).
    rewrite Hw. reflexivity.
  - destruct (fire_all [ClickGenerate] (boot (Some ""))) as [w|] eqn:Hrun;
      [|reflexivity].
    destruct (logged_out_is_inert (Some "") [ClickGenerate] w eq_refl Hrun)
      as (Hevs & _).
    discriminate Hevs.
Defined.

(** ** The song fetch has no retry *)

Lemma no_song_stays ev w w' :
  currentSong (st w) = None → recommendations (st w) = [] → inflight w = [] →
  fire ev w = Some w' →
  currentSong (st w') = None ∧ recommendations (st w') = [] ∧ inflight w' = [].
Proof.
  destruct w as [s fl]. cbn [st inflight]. intros Hsong Hrecs -> Hfire.
  assert (Hc : controls_shown s = false).
  { unfold controls_shown, App_render. rewrite Hsong.
    destruct (truthy (sessionId s)); reflexivity. }
  assert (Hl : list_shown s = false).
  { unfold list_shown, App_render. rewrite Hrecs.
    destruct (truthy (sessionId s)); reflexivity. }
  destruct ev as [call reply|id|n|v| |call reply|trackId|call reply| |call reply
                 |event| ]; unfold fire in Hfire; cbn [st inflight] in Hfire;
    rewrite ?Hc, ?Hl in Hfire; try discriminate Hfire;
    try (destruct call; discriminate Hfire).
  destruct (banner_shown s); [|discriminate].
  injection Hfire as <-. simpl. auto.
Qed.

Lemma no_song_stays_all evs w w' :
  currentSong (st w) = None → recommendations (st w) = [] → inflight w = [] →
  fire_all evs w = Some w' →
  currentSong (st w') = None ∧ recommendations (st w') = [] ∧ inflight w' = [].
Proof.
  revert w. induction evs as [|ev evs IH]; intros w Hsong Hrecs Hfl Hrun;
    simpl in Hrun.
  - injection Hrun as <-. auto.
  - destruct (fire ev w) as [w1|] eqn:Hfire; [|discriminate].
    destruct (no_song_stays ev w w1 Hsong Hrecs Hfl Hfire) as (H1 & H2 & H3).
    apply (IH w1 H1 H2 H3 Hrun).
Qed.

(** When the song fetch fails, or finds no song, nothing brings the controls
    back: whatever the user does afterwards there is no current song and no
    list, the selection widgets and the generate button are not rendered, and
    no call is issued again. *)
Theorem song_fetch_failure_is_final (session : option string)
    (reply : completion (option Track)) (evs : list Event) (w : World) :
  (∀ song, reply ≠ Normal (Some song)) →
  fire_all (SongSettled (GetCurrentSong session) reply :: evs) (boot session)
    = Some w →
  currentSong (st w) = None ∧ recommendations (st w) = [] ∧ inflight w = [] ∧
  controls_shown (st w) = false ∧ list_shown (st w) = false.
Proof.
  intros Hreply Hrun. cbn [fire_all] in Hrun.
  destruct (fire (SongSettled (GetCurrentSong session) reply) (boot session))
    as [w1|] eqn:Hfire; [|discriminate].
  assert (H1 : currentSong (st w1) = None ∧ recommendations (st w1) = []
               ∧ inflight w1 = []).
  { unfold fire in Hfire.
    destruct (in_flight _ _) eqn:Hin; [|discriminate]. injection Hfire as <-.
    unfold boot, fetchSong_begin, mbind, M_bind, bind, get in Hin |- *.
    simpl in Hin |- *.
    destruct (truthy session) eqn:Htok; simpl in Hin |- *.
    - destruct (decide (GetCurrentSong session = GetCurrentSong session));
        [|congruence].
      destruct reply as [[song|]|err]; simpl; auto.
      contradiction (Hreply song). reflexivity.
    - discriminate Hin. }
  destruct H1 as (Hs & Hr & Hf).
  destruct (no_song_stays_all evs w1 w Hs Hr Hf Hrun) as (Hs' & Hr' & Hf').
  split; [exact Hs'|]. split; [exact Hr'|]. split; [exact Hf'|].
  unfold controls_shown, list_shown, App_render. rewrite Hs', Hr'.
  destruct (truthy (sessionId (st w))); split; reflexivity.
Qed.

Lemma song_fetch_failure_is_final_witness :
  ∃ w, fire_all [SongSettled (GetCurrentSong (Some "tok")) (Throw (mkError "401"));
                 DismissError] (boot (Some "tok")) = Some w ∧
       currentSong (st w) = None ∧ controls_shown (st w) = false.
Proof.
  destruct (fire_all [SongSettled (GetCurrentSong (Some "tok")) (Throw (mkError "401"));
                      DismissError] (boot (Some "tok"))) as [w|] eqn:Hrun;
    [|vm_compute in Hrun; discriminate Hrun].
  exists w. split; [reflexivity|].
  destruct (song_fetch_failure_is_final (Some "tok") (Throw (mkError "401"))
              [DismissError] w) as (Hs & _ & _ & Hc & _).
  - intros song. discriminate.
  - exact Hrun.
  - split; [exact Hs|exact Hc].
Defined.

(** ** Song count *)

(** The custom count box accepts exactly the whole numbers from 1 to 25: such
    a value becomes the song count, anything else ([NaN], zero, a negative
    number, more than 25) leaves the state as it was. *)
Theorem customChange_validates (v : option Z) (s : State) :
  (∀ n, v = Some n → (1 ≤ n ≤ 25)%Z →
     songCount (exec (customChange setSongCount v) s) = n) ∧
  ((v = None ∨ ∃ n, v = Some n ∧ (n < 1 ∨ 25 < n)%Z) →
     customChange setSongCount v s = (Normal tt, s)).
Proof.
  split.
  - intros n -> Hn. unfold exec, customChange.
    replace (0 <? n)%Z with true by lia. replace (n <=? 25)%Z with true by lia.
    reflexivity.
  - intros [->|(n & -> & Hn)]; [reflexivity|]. unfold customChange.
    destruct (0 <? n)%Z eqn:H0; [|reflexivity].
    replace (n <=? 25)%Z with false by lia. reflexivity.
Qed.

Lemma customChange_validates_witness :
  songCount (exec (customChange setSongCount (Some 12%Z)) ready) = 12%Z ∧
  customChange setSongCount (Some 26%Z) ready = (Normal tt, ready) ∧
  customChange setSongCount (Some 0%Z) ready = (Normal tt, ready).
Proof.
  destruct (customChange_validates (Some 12%Z) ready) as [Hok _].
  destruct (customChange_validates (Some 26%Z) ready) as [_ Hhigh].
  destruct (customChange_validates (Some 0%Z) ready) as [_ Hlow].
  split; [apply (Hok 12%Z eq_refl); lia|]. split.
  - apply Hhigh. right. exists 26%Z. split; [reflexivity|lia].
  - apply Hlow. right. exists 0%Z. split; [reflexivity|lia].
Defined.

(** ** Session resolver *)

(** Resolving again on the window the resolver left behind (a reload) gives
    the same token and changes nothing more. *)
Theorem getSessionId_reload (w : Window) :
  getSessionId (snd (getSessionId w)) = (fst (getSessionId w), snd (getSessionId w)).
Proof.
  unfold getSessionId.
  destruct (URLSearchParams_get "session" (location_search w)) as [id|] eqn:Hget.
  - destruct (String.eqb_spec id "") as [->|Hne]; simpl.
    + rewrite Hget. reflexivity.
    + rewrite lookup_insert_eq. reflexivity.
  - simpl. rewrite Hget. reflexivity.
Qed.

(** * Generation across the await *)

(** The handler behind each event. *)
Lemma fire_cases ev w w' :
  fire ev w = Some w' →
  match ev with
  | SongSettled _ reply => st w' = exec (fetchSong_settle reply) (st w)
  | ToggleMood id => st w' = exec (toggle (moods (st w)) setMoods id) (st w)
  | PickOption n => st w' = exec (setSongCount n) (st w)
  | CustomCount v => st w' = exec (customChange setSongCount v) (st w)
  | ClickGenerate =>
      ∃ song, currentSong (st w) = Some song ∧
              truthy (sessionId (st w)) = true ∧
              st w' = exec handleGenerate_begin (st w)
  | GenerateSettled _ reply => st w' = exec (handleGenerate_settle reply) (st w)
  | ClickReject trackId =>
      list_shown (st w) = true ∧ st w' = exec (beginReject trackId) (st w)
  | RejectSettled call reply =>
      ∃ sid trackId cur rp,
        call = RejectTrack sid trackId cur rp ∧
        st w' = exec (handleReject_settle trackId reply) (st w)
  | ClickAddToQueue =>
      list_shown (st w) = true ∧ st w' = exec handleAddToQueue_begin (st w)
  | AddToQueueSettled _ reply =>
      st w' = exec (handleAddToQueue_settle reply) (st w)
  | DragEnd event =>
      list_shown (st w) = true ∧ st w' = exec (App_dragEnd event) (st w)
  | DismissError => st w' = exec (setError None) (st w)
  end.
Proof.
  destruct w as [s fl]. intros Hfire.
  destruct ev as [call reply|id|n|v| |call reply|trackId|call reply| |call reply
                 |event| ]; unfold fire in Hfire; cbn [st inflight] in Hfire |- *.
  - destruct call; try discriminate.
    destruct (in_flight _ _); [|discriminate]. injection Hfire as <-. reflexivity.
  - destruct (_ && _); [|discriminate]. injection Hfire as <-. reflexivity.
  - destruct (_ && _); [|discriminate]. injection Hfire as <-. reflexivity.
  - destruct (controls_shown s); [|discriminate]. injection Hfire as <-.
    reflexivity.
  - destruct (controls_shown s && negb (isLoadingRecs s)) eqn:Hc; [|discriminate].
    apply andb_true_iff in Hc as [Hshown _].
    apply controls_shown_inv in Hshown as (Htok & song & Hsong).
    exists song. split; [exact Hsong|]. split; [exact Htok|].
    unfold exec. destruct (handleGenerate_begin s) as [[[c|]|e] s'];
      injection Hfire as <-; reflexivity.
  - destruct call; try discriminate.
    destruct (in_flight _ _); [|discriminate]. injection Hfire as <-. reflexivity.
  - destruct (list_shown s) eqn:Hl; [|discriminate].
    destruct (_ && _); [|discriminate]. split; [reflexivity|].
    unfold exec, beginReject.
    destruct (handleReject_begin trackId s) as [[c|e] s'];
      injection Hfire as <-; reflexivity.
  - destruct call as [ | |sid i cur rp| ]; try discriminate.
    destruct (in_flight _ _); [|discriminate]. injection Hfire as <-.
    exists sid, i, cur, rp. split; reflexivity.
  - destruct (list_shown s) eqn:Hl; [|discriminate].
    destruct (_ && _); [|discriminate]. split; [reflexivity|].
    unfold exec. destruct (handleAddToQueue_begin s) as [[c|e] s'];
      injection Hfire as <-; reflexivity.
  - destruct call; try discriminate.
    destruct (in_flight _ _); [|discriminate]. injection Hfire as <-. reflexivity.
  - destruct (list_shown s) eqn:Hl; [|discriminate].
    destruct (_ && _); [|discriminate]. injection Hfire as <-.
    split; reflexivity.
  - destruct (banner_shown s); [|discriminate]. injection Hfire as <-.
    reflexivity.
Qed.

Lemma list_shown_nonempty s : list_shown s = true → recommendations s ≠ [].
Proof.
  unfold list_shown, App_render. intros H Hnil. rewrite Hnil in H.
  destruct (truthy (sessionId s)); discriminate.
Qed.

Lemma fire_all_app evs1 evs2 w w' :
  fire_all (evs1 ++ evs2) w = Some w' →
  ∃ wm, fire_all evs1 w = Some wm ∧ fire_all evs2 wm = Some w'.
Proof.
  revert w. induction evs1 as [|ev evs1 IH]; intros w Hrun; simpl in *.
  - exists w. split; [reflexivity|exact Hrun].
  - destruct (fire ev w) as [w1|]; [|discriminate]. apply IH, Hrun.
Qed.



(** The banner, once cleared, stays clear until a request fails. *)
Lemma banner_stays_clear ev w w' :
  error (st w) = None → failed_reply ev = false →
  fire ev w = Some w' → error (st w') = None.
Proof.
  intros Hclear Hev Hfire. pose proof (fire_cases ev w w' Hfire) as Hst.
  destruct ev as [call reply|id|n|v| |call reply|trackId|call reply| |call reply
                 |event| ].
  - rewrite Hst. destruct reply; [exact Hclear|discriminate Hev].
  - rewrite Hst. unfold exec, toggle.
    destruct (includes id (moods (st w))); exact Hclear.
  - rewrite Hst. exact Hclear.
  - rewrite Hst. unfold exec, customChange. destruct v as [v|]; [|exact Hclear].
    destruct (_ && _); exact Hclear.
  - destruct Hst as (song & Hsong & Htok & ->). unfold exec.
    rewrite (handleGenerate_begin_pass _ song Hsong Htok). reflexivity.
  - rewrite Hst. destruct reply; [exact Hclear|discriminate Hev].
  - destruct Hst as [_ ->]. exact Hclear.
  - destruct Hst as (sid & i & cur & rp & -> & ->).
    destruct reply; [exact Hclear|discriminate Hev].
  - destruct Hst as [_ ->]. exact Hclear.
  - rewrite Hst. destruct reply; [exact Hclear|discriminate Hev].
  - destruct Hst as [_ ->].
    destruct (App_dragEnd_cases event (st w)) as [->|[newOrder ->]];
      exact Hclear.
  - rewrite Hst. reflexivity.
Qed.

Lemma banner_stays_clear_all evs w w' :
  error (st w) = None → Forall (fun ev => failed_reply ev = false) evs →
  fire_all evs w = Some w' → error (st w') = None.
Proof.
  revert w. induction evs as [|ev evs IH]; intros w Hclear Hevs Hrun;
    simpl in Hrun.
  - injection Hrun as <-. exact Hclear.
  - destruct (fire ev w) as [w1|] eqn:Hfire; [|discriminate].
    apply Forall_cons in Hevs as [Hev Hevs].
    apply (IH w1); [|exact Hevs|exact Hrun].
    apply (banner_stays_clear ev w w1 Hclear Hev Hfire).
Qed.

(** An empty list stays empty, and the recently-played identifiers stay as
    they are, until a generation replies. *)
Lemma list_stays_empty ev w w' :
  recommendations (st w) = [] → generation_reply ev = false →
  fire ev w = Some w' →
  recommendations (st w') = [] ∧
  recentlyPlayedIds (st w') = recentlyPlayedIds (st w).
Proof.
  intros Hnil Hev Hfire. pose proof (fire_cases ev w w' Hfire) as Hst.
  destruct ev as [call reply|id|n|v| |call reply|trackId|call reply| |call reply
                 |event| ].
  - rewrite Hst. destruct reply; split; first [exact Hnil|reflexivity].
  - rewrite Hst. unfold exec, toggle.
    destruct (includes id (moods (st w))); split; first [exact Hnil|reflexivity].
  - rewrite Hst. split; [exact Hnil|reflexivity].
  - rewrite Hst. unfold exec, customChange.
    destruct v as [v|]; [|split; [exact Hnil|reflexivity]].
    destruct (_ && _); split; first [exact Hnil|reflexivity].
  - destruct Hst as (song & Hsong & Htok & ->). unfold exec.
    rewrite (handleGenerate_begin_pass _ song Hsong Htok). split; reflexivity.
  - discriminate Hev.
  - destruct Hst as [Hshown _].
    contradiction (list_shown_nonempty _ Hshown Hnil).
  - destruct Hst as (sid & i & cur & rp & _ & ->).
    destruct reply as [[x]|err]; [|split; [exact Hnil|reflexivity]].
    change (handleReject_settle i (Normal (mkRejectData x)))
      with (completeReject i x).
    unfold exec. rewrite completeReject_state. simpl. rewrite Hnil.
    split; reflexivity.
  - destruct Hst as [Hshown _].
    contradiction (list_shown_nonempty _ Hshown Hnil).
  - rewrite Hst. destruct reply; split; first [exact Hnil|reflexivity].
  - destruct Hst as [Hshown _].
    contradiction (list_shown_nonempty _ Hshown Hnil).
  - rewrite Hst. split; [exact Hnil|reflexivity].
Qed.

Lemma list_stays_empty_all evs w w' :
  recommendations (st w) = [] →
  Forall (fun ev => generation_reply ev = false) evs →
  fire_all evs w = Some w' →
  recommendations (st w') = [] ∧
  recentlyPlayedIds (st w') = recentlyPlayedIds (st w).
Proof.
  revert w. induction evs as [|ev evs IH]; intros w Hnil Hevs Hrun;
    simpl in Hrun.
  - injection Hrun as <-. auto.
  - destruct (fire ev w) as [w1|] eqn:Hfire; [|discriminate].
    apply Forall_cons in Hevs as [Hev Hevs].
    destruct (list_stays_empty ev w w1 Hnil Hev Hfire) as [Hnil1 Hrp1].
    destruct (IH w1 Hnil1 Hevs Hrun) as [Hnil' Hrp']. split; congruence.
Qed.

(** A run from the click on the generate button to the reply. *)
Lemma generation_window evs reply call w w' :
  fire_all (ClickGenerate :: evs ++ [GenerateSettled call reply]) w = Some w' →
  ∃ w1 w2,
    st w1 = exec handleGenerate_begin (st w) ∧
    (∃ song, currentSong (st w) = Some song ∧ truthy (sessionId (st w)) = true) ∧
    fire_all evs w1 = Some w2 ∧
    st w' = exec (handleGenerate_settle reply) (st w2).
Proof.
  intros Hrun. cbn [fire_all] in Hrun.
  destruct (fire ClickGenerate w) as [w1|] eqn:Hclick; [|discriminate].
  apply fire_all_app in Hrun as (w2 & Hevs & Hlast). cbn [fire_all] in Hlast.
  destruct (fire (GenerateSettled call reply) w2) as [w3|] eqn:Hsettle;
    [|discriminate].
  injection Hlast as <-.
  destruct (fire_cases _ _ _ Hclick) as (song & Hsong & Htok & Hw1).
  exists w1, w2. split; [exact Hw1|]. split; [eauto|]. split; [exact Hevs|].
  exact (fire_cases _ _ _ Hsettle).
Qed.




(** A generation that fails does not throw out of the handler and touches
    neither the Replacing Set nor the Committed flag. Whatever else happens
    between the click and the failing reply (no other generation replies in
    between), the list is empty afterwards (it was emptied at the click), the
    banner carries the message, the loading flag is false and the
    recently-played identifiers are those from before the click. *)
Theorem failed_generation_leaves_empty_list (e : Error) :
  (∀ s,
     outcome (handleGenerate_settle (Throw e)) s = Normal tt ∧
     replacingIds (exec (handleGenerate_settle (Throw e)) s) = replacingIds s ∧
     addedToQueue (exec (handleGenerate_settle (Throw e)) s) = addedToQueue s) ∧
  (∀ w evs call w',
     Forall (fun ev => generation_reply ev = false) evs →
     fire_all (ClickGenerate :: evs ++ [GenerateSettled call (Throw e)]) w
       = Some w' →
     recommendations (st w') = [] ∧
     error (st w') = Some ("Could not get recommendations: " +:+ message e) ∧
     isLoadingRecs (st w') = false ∧
     recentlyPlayedIds (st w') = recentlyPlayedIds (st w)).
Proof.
  split; [intros s; repeat split|].
  intros w evs call w' Hquiet Hrun.
  destruct (generation_window _ _ _ _ _ Hrun)
    as (w1 & w2 & Hw1 & (song & Hsong & Htok) & Hevs & ->).
  assert (H1 : recommendations (st w1) = [] ∧
               recentlyPlayedIds (st w1) = recentlyPlayedIds (st w)).
  { rewrite Hw1. unfold exec.
    rewrite (handleGenerate_begin_pass _ song Hsong Htok). split; reflexivity. }
  destruct H1 as [Hnil Hrp].
  destruct (list_stays_empty_all evs w1 w2 Hnil Hquiet Hevs) as [Hnil2 Hrp2].
  split; [exact Hnil2|]. split; [reflexivity|]. split; [reflexivity|].
  change (recentlyPlayedIds (st w2) = recentlyPlayedIds (st w)). congruence.
Qed.

Lemma failed_generation_leaves_empty_list_witness :
  ∃ w',
    fire_all
      [ClickGenerate;
       RejectSettled (RejectTrack (Some "tok") "b" ["a"; "b"; "c"] [])
         (Normal (mkRejectData tD));
       GenerateSettled (GetRecommendations (Some "tok") "now" [] 5)
         (Throw (mkError "503"))]
      (mkWorld (showing [tA; tB; tC] {["b"]} true)
         [RejectTrack (Some "tok") "b" ["a"; "b"; "c"] []])
      = Some w' ∧
    recommendations (st w') = [] ∧
    error (st w') = Some "Could not get recommendations: 503".
Proof.
  destruct (fire_all
      [ClickGenerate;
       RejectSettled (RejectTrack (Some "tok") "b" ["a"; "b"; "c"] [])
         (Normal (mkRejectData tD));
       GenerateSettled (GetRecommendations (Some "tok") "now" [] 5)
         (Throw (mkError "503"))]
      (mkWorld (showing [tA; tB; tC] {["b"]} true)
         [RejectTrack (Some "tok") "b" ["a"; "b"; "c"] []]))
    as [w'|] eqn:Hrun; [|vm_compute in Hrun; discriminate Hrun].
  exists w'. split; [reflexivity|].
  destruct (proj2 (failed_generation_leaves_empty_list (mkError "503"))
              (mkWorld (showing [tA; tB; tC] {["b"]} true)
                 [RejectTrack (Some "tok") "b" ["a"; "b"; "c"] []])
              [RejectSettled (RejectTrack (Some "tok") "b" ["a"; "b"; "c"] [])
                 (Normal (mkRejectData tD))]
              (GetRecommendations (Some "tok") "now" [] 5) w')
    as (Hlist & Herr & _).
  - repeat constructor.
  - exact Hrun.
  - split; [exact Hlist|exact Herr].
Defined.

(** A generation that succeeds clears the loading flag and stores the reply's
    recently-played identifiers, or the empty list when the reply carries
    none. The banner is cleared at the click, not at the install: it is clear
    after the install whenever no request failed between the click and the
    reply. *)
Theorem generation_success_bookkeeping (data : RecommendData) :
  (∀ s,
     error (exec (handleGenerate_settle (Normal data)) s) = error s) ∧
  (∀ w evs call w',
     fire_all (ClickGenerate :: evs ++ [GenerateSettled call (Normal data)]) w
       = Some w' →
     isLoadingRecs (st w') = false ∧
     recentlyPlayedIds (st w')
       = match recently_played_ids data with Some l => l | None => [] end ∧
     (Forall (fun ev => failed_reply ev = false) evs → error (st w') = None)).
Proof.
  split; [intros s; reflexivity|].
  intros w evs call w' Hrun.
  destruct (generation_window _ _ _ _ _ Hrun)
    as (w1 & w2 & Hw1 & (song & Hsong & Htok) & Hevs & ->).
  split; [reflexivity|].
  split; [destruct data as [ts [l|]]; reflexivity|].
  intros Hquiet. change (error (st w2) = None).
  apply (banner_stays_clear_all evs w1 w2); [|exact Hquiet|exact Hevs].
  rewrite Hw1. unfold exec.
  rewrite (handleGenerate_begin_pass _ song Hsong Htok). reflexivity.
Qed.

Lemma generation_success_bookkeeping_witness :
  ∃ w',
    fire_all
      [ClickGenerate;
       RejectSettled (RejectTrack (Some "tok") "b" ["a"; "b"; "c"] [])
         (Normal (mkRejectData tD));
       GenerateSettled (GetRecommendations (Some "tok") "now" [] 5)
         (Normal (mkRecommendData [tA] None))]
      (mkWorld (exec (setError (Some "Could not replace track: old"))
                  (showing [tA; tB; tC] {["b"]} true))
         [RejectTrack (Some "tok") "b" ["a"; "b"; "c"] []])
      = Some w' ∧
    error (st w') = None ∧ recentlyPlayedIds (st w') = [].
Proof.
  destruct (fire_all
      [ClickGenerate;
       RejectSettled (RejectTrack (Some "tok") "b" ["a"; "b"; "c"] [])
         (Normal (mkRejectData tD));
       GenerateSettled (GetRecommendations (Some "tok") "now" [] 5)
         (Normal (mkRecommendData [tA] None))]
      (mkWorld (exec (setError (Some "Could not replace track: old"))
                  (showing [tA; tB; tC] {["b"]} true))
         [RejectTrack (Some "tok") "b" ["a"; "b"; "c"] []]))
    as [w'|] eqn:Hrun; [|vm_compute in Hrun; discriminate Hrun].
  exists w'. split; [reflexivity|].
  destruct (proj2 (generation_success_bookkeeping (mkRecommendData [tA] None)) _
              [RejectSettled (RejectTrack (Some "tok") "b" ["a"; "b"; "c"] [])
                 (Normal (mkRejectData tD))] _ w' Hrun)
    as (_ & Hrecent & Hbanner).
  split; [apply Hbanner; repeat constructor|exact Hrecent].
Defined.
